(** * open-flash/stream: a shallow embedding of [ReadableStream] and [WritableStream]

    The development follows [src/lib/readable.ts] and [src/lib/writable.ts].
    JavaScript numbers that the source declares as integers ([UintSize],
    [Uint8], [Uint32], ...) are modelled by [Z]; all the integer arithmetic of
    the two classes stays far below 2^53, where double arithmetic is exact.
    The 32-bit operators ([&], [|], [<<], [>>>]) wrap as ECMAScript says.
    Numbers that are genuinely floating point ([Float16], [Float64]) are
    primitive binary64 floats. *)

From Stdlib Require Import ZArith List Lia Bool QArith.
From Stdlib Require String.
From Stdlib Require Import Floats.PrimFloat Floats.FloatOps Floats.SpecFloat.
From Stdlib Require Import Numbers.Cyclic.Int63.Uint63.
From Equations Require Import Equations.
Import ListNotations.
Open Scope Z_scope.

(* ================================================================== *)
(** ** ECMAScript integer operators *)

Module JS.

(** [ToInt32] and [ToUint32] of an integer-valued Number, with
    [2^31 = 2147483648] and [2^32 = 4294967296]. *)
Definition ToInt32 (x : Z) : Z := (x + 2147483648) mod 4294967296 - 2147483648.
Definition ToUint32 (x : Z) : Z := x mod 4294967296.

(** [a & b], [a | b], [a << n] and [a >>> n]. *)
Definition band (a b : Z) : Z := Z.land (ToInt32 a) (ToInt32 b).
Definition bor (a b : Z) : Z := Z.lor (ToInt32 a) (ToInt32 b).
Definition shl (a n : Z) : Z := ToInt32 (Z.shiftl (ToInt32 a) (ToUint32 n mod 32)).
Definition shru (a n : Z) : Z := Z.shiftr (ToUint32 a) (ToUint32 n mod 32).

(** [a[i]] on a typed array: [undefined] (here [None]) outside the array. *)
Definition elem (a : list Z) (i : Z) : option Z :=
  if i <? 0 then None else nth_error a (Z.to_nat i).

(** An array element used as operand of a 32-bit operator:
    [ToInt32(undefined)] is [+0]. *)
Definition int_of (v : option Z) : Z :=
  match v with Some b => b | None => 0 end.

(** [a === b] on array elements. *)
Definition strict_eq (a b : option Z) : bool :=
  match a, b with
  | Some x, Some y => x =? y
  | None, None => true
  | _, _ => false
  end.

(** Relative index of [TypedArray.prototype.subarray] and [indexOf]. *)
Definition relative_index (len i : Z) : Z :=
  if i <? 0 then Z.max (len + i) 0 else Z.min i len.

(** [a.subarray(begin, end)]. *)
Definition subarray (a : list Z) (begin end_ : Z) : list Z :=
  let len := Z.of_nat (length a) in
  let b := relative_index len begin in
  let e := relative_index len end_ in
  firstn (Z.to_nat (e - b)) (skipn (Z.to_nat b) a).

(** [a.subarray(begin)]: the end defaults to the length. *)
Definition subarray_from (a : list Z) (begin : Z) : list Z :=
  subarray a begin (Z.of_nat (length a)).

(** Position of the first zero of [l], counted from [i]. *)
Fixpoint find_zero (l : list Z) (i : Z) : Z :=
  match l with
  | [] => -1
  | b :: l' => if b =? 0 then i else find_zero l' (i + 1)
  end.

(** [a.indexOf(0, fromIndex)]: [-1] when there is none. *)
Definition indexOf0 (a : list Z) (fromIndex : Z) : Z :=
  let k := relative_index (Z.of_nat (length a)) fromIndex in
  find_zero (skipn (Z.to_nat k) a) k.

(** [new Uint8Array(chunk)]: every element is taken modulo 256. *)
Definition Uint8Array_from (chunk : list Z) : list Z :=
  map (fun x => x mod 256) chunk.

End JS.

(* ================================================================== *)
(** ** Exceptions and the state-and-exception monad of the methods *)

Inductive Error : Set :=
| BitOverflow        (* new Incident("BitOverflow", ...) *)
| IncompleteStream   (* createIncompleteStreamError() *)
| RangeError         (* DataView access outside the view *)
| DecodeError.       (* TypeError of the fatal TextDecoder *)

Inductive Result (A : Type) : Type :=
| Ok (a : A)
| Throw (e : Error).
Arguments Ok {A} a.
Arguments Throw {A} e.

(** A method of a class with state [S]: it returns a value and the new
    state of [this], or throws and leaves no state to continue with. *)
Definition M (S A : Type) : Type := S -> Result (A * S).

Definition ret {S A} (a : A) : M S A := fun s => Ok (a, s).
Definition bind {S A B} (m : M S A) (k : A -> M S B) : M S B :=
  fun s => match m s with
           | Ok (a, s') => k a s'
           | Throw e => Throw e
           end.
Definition get {S} : M S S := fun s => Ok (s, s).
Definition modify {S} (f : S -> S) : M S unit := fun s => Ok (tt, f s).

Notation "x <- m ;; k" := (bind m (fun x => k))
  (at level 61, m at next level, right associativity).
Notation "m ;;; k" := (bind m (fun _ => k))
  (at level 61, right associativity).

Definition succeeds {S A} (x : Result (A * S)) : Prop :=
  exists a s, x = Ok (a, s).

(* ================================================================== *)
(** ** IEEE-754 binary64 and the platform's [DataView] *)

Definition Float64 : Set := float.
Definition Float16 : Set := float.

(** The double whose IEEE-754 binary64 bit pattern is [w]
    (sign, 11 exponent bits, 52 fraction bits). *)
Definition float64_of_bits (w : Z) : Float64 :=
  let s := Z.testbit w 63 in
  let e := (w / 2^52) mod 2^11 in
  let m := w mod 2^52 in
  SF2Prim
    (if e =? 0 then
       if m =? 0 then S754_zero s else S754_finite s (Z.to_pos m) (-1074)
     else if e =? 2047 then
       if m =? 0 then S754_infinity s else S754_nan
     else S754_finite s (Z.to_pos (m + 2^52)) (e - 1075)).

Module DataView.

(** The [n] bytes at [byteOffset]; a [RangeError] outside the view. *)
Definition read (view : list Z) (byteOffset n : Z) : Result (list Z) :=
  if (byteOffset <? 0) || (Z.of_nat (length view) <? byteOffset + n)
  then Throw RangeError
  else Ok (firstn (Z.to_nat n) (skipn (Z.to_nat byteOffset) view)).

Fixpoint le_combine (bs : list Z) : Z :=
  match bs with
  | [] => 0
  | b :: bs' => b + 256 * le_combine bs'
  end.

Fixpoint le_split (n : nat) (v : Z) : list Z :=
  match n with
  | O => []
  | S n' => v mod 256 :: le_split n' (v / 256)
  end.

Definition order (littleEndian : bool) (bs : list Z) : list Z :=
  if littleEndian then bs else rev bs.

Definition getUint (n : Z) (view : list Z) (byteOffset : Z) (littleEndian : bool)
  : Result Z :=
  match read view byteOffset n with
  | Ok bs => Ok (le_combine (order littleEndian bs))
  | Throw e => Throw e
  end.

Definition getInt (n : Z) (view : list Z) (byteOffset : Z) (littleEndian : bool)
  : Result Z :=
  match getUint n view byteOffset littleEndian with
  | Ok u => Ok (if 2 ^ (8 * n - 1) <=? u then u - 2 ^ (8 * n) else u)
  | Throw e => Throw e
  end.

Definition getUint8 (view : list Z) (byteOffset : Z) := getUint 1 view byteOffset true.
Definition getInt8 (view : list Z) (byteOffset : Z) := getInt 1 view byteOffset true.
Definition getUint16 := getUint 2.
Definition getInt16 := getInt 2.
Definition getUint32 := getUint 4.
Definition getInt32 := getInt 4.

Definition getFloat64 (view : list Z) (byteOffset : Z) (littleEndian : bool)
  : Result Float64 :=
  match read view byteOffset 8 with
  | Ok bs => Ok (float64_of_bits (le_combine (order littleEndian bs)))
  | Throw e => Throw e
  end.

(** [view.setUint32(byteOffset, value, littleEndian)]: the new content. *)
Definition setUint32 (view : list Z) (byteOffset value : Z) (littleEndian : bool)
  : Result (list Z) :=
  if (byteOffset <? 0) || (Z.of_nat (length view) <? byteOffset + 4)
  then Throw RangeError
  else Ok (firstn (Z.to_nat byteOffset) view
           ++ order littleEndian (le_split 4 (JS.ToUint32 value))
           ++ skipn (Z.to_nat (byteOffset + 4)) view).

End DataView.

(* ================================================================== *)
(** ** Half-precision decoding ([reinterpretUint16AsFloat16]) *)

(** A Number with the integer value [z] ([|z| < 2^53]). *)
Definition Number (z : Z) : float :=
  if z <? 0 then PrimFloat.opp (of_uint63 (Uint63.of_Z (- z)))
  else of_uint63 (Uint63.of_Z z).

(** [Math.pow(2, e)] for an integer [e]: the exact power of two. *)
Definition Math_pow2 (e : Z) : float := Z.ldexp 1%float e.

Definition reinterpretUint16AsFloat16 (u16 : Z) : Float16 :=
  let sign : Z := if negb (JS.band u16 (JS.shl 1 15) =? 0) then -1 else 1 in
  let exponent : Z := JS.shru (JS.band u16 0x7c00) 10 in
  let fraction : Z := JS.band u16 0x03ff in
  if exponent =? 0 then
    PrimFloat.mul (PrimFloat.mul (Number sign) (Math_pow2 (-14)))
                  (PrimFloat.div (Number fraction) (Number 1024))
  else if exponent =? 0x1f then
    if fraction =? 0 then PrimFloat.mul (Number sign) infinity else nan
  else
    PrimFloat.mul (PrimFloat.mul (Number sign) (Math_pow2 (exponent - 15)))
                  (PrimFloat.add (Number 1) (PrimFloat.div (Number fraction) (Number 1024))).

(** The three branches of [reinterpretUint16AsFloat16], as a function of
    the values of its constants [sign], [exponent] and [fraction]. *)
Definition float16_of_fields (sign exponent fraction : Z) : Float16 :=
  if exponent =? 0 then
    PrimFloat.mul (PrimFloat.mul (Number sign) (Math_pow2 (-14)))
                  (PrimFloat.div (Number fraction) (Number 1024))
  else if exponent =? 0x1f then
    if fraction =? 0 then PrimFloat.mul (Number sign) infinity else nan
  else
    PrimFloat.mul (PrimFloat.mul (Number sign) (Math_pow2 (exponent - 15)))
                  (PrimFloat.add (Number 1) (PrimFloat.div (Number fraction) (Number 1024))).

(* ================================================================== *)
(** ** [ReadableStream] *)

Definition inspect {A : Type} (x : A) : {y : A | x = y} := exist _ x eq_refl.

(** Termination measure of the bit loops of both classes: [n] bits are
    still to be processed and the cursor stands at bit [bitPos]. *)
Definition bits_measure (n bitPos : Z) : nat :=
  if n <=? 0 then O
  else if bitPos <? 8 then Z.to_nat n
  else S (Z.to_nat (n - (8 - bitPos))).

(** Decides the comparisons of a goal about [bits_measure]. *)
Ltac bits_measure_lt :=
  unfold bits_measure;
  repeat match goal with
         | H : (_ <? _) = true |- _ => apply Z.ltb_lt in H
         | |- context [?a <=? ?b] => destruct (Z.leb_spec a b)
         | |- context [?a <? ?b] => destruct (Z.ltb_spec a b)
         end; lia.

#[local] Obligation Tactic := idtac.

Module Readable.

Record ReadableStream : Type := mkReadableStream {
  bytes : list Z;      (* #bytes, and the content of #view *)
  bytePos : Z;
  byteEnd : Z;         (* #byteEnd *)
  bitPos : Z
}.

Definition set_bytePos (v : Z) (this : ReadableStream) : ReadableStream :=
  {| bytes := bytes this; bytePos := v; byteEnd := byteEnd this; bitPos := bitPos this |}.

Definition set_bitPos (v : Z) (this : ReadableStream) : ReadableStream :=
  {| bytes := bytes this; bytePos := bytePos this; byteEnd := byteEnd this; bitPos := v |}.

Definition constructor (bytes : list Z) (_byteOffset bitOffset : Z) : ReadableStream :=
  {| bytes := bytes; bytePos := 0; byteEnd := Z.of_nat (length bytes); bitPos := bitOffset |}.

(** The [for (; i < leftLen; i++)] loop of [equals], [k] iterations left. *)
Fixpoint equals_loop (k : nat) (i : Z) (left right : ReadableStream) : bool :=
  match k with
  | O => true
  | S k' =>
      if negb (JS.strict_eq (JS.elem (bytes left) (bytePos left + i))
                            (JS.elem (bytes right) (bytePos right + i)))
      then false
      else equals_loop k' (i + 1) left right
  end.

Definition equals (left right : ReadableStream) : bool :=
  if negb (bitPos left =? bitPos right) then false
  else
    let leftLen := byteEnd left - bytePos left in
    let rightLen := byteEnd right - bytePos right in
    if negb (leftLen =? rightLen) then false
    else if leftLen =? 0 then true
    else if negb (bitPos left =? 0) then
      let leftPartialByte := JS.elem (bytes left) (bytePos left) in
      let rightPartialByte := JS.elem (bytes right) (bytePos right) in
      let mask := JS.shl 1 (8 - bitPos left) - 1 in
      if negb (JS.band (JS.int_of leftPartialByte) mask
               =? JS.band (JS.int_of rightPartialByte) mask)
      then false
      else equals_loop (Z.to_nat (leftLen - 1)) 1 left right
    else equals_loop (Z.to_nat (leftLen - 0)) 0 left right.

Definition align : M ReadableStream unit :=
  fun this =>
    if negb (bitPos this =? 0)
    then Ok (tt, set_bytePos (bytePos this + 1) (set_bitPos 0 this))
    else Ok (tt, this).

Definition asBitStream : M ReadableStream unit := ret tt.

Definition asByteStream : M ReadableStream unit := align.

Definition tailBytes : M ReadableStream (list Z) :=
  fun this =>
    let result := JS.subarray_from (bytes this) (bytePos this) in
    Ok (result, set_bitPos 0 (set_bytePos (byteEnd this) this)).

(** [new ReadableStream(this.tailBytes(), 0, this.bitPos)]: the arguments
    are evaluated from left to right, so [this.bitPos] is read after
    [tailBytes] has run. *)
Definition tail : M ReadableStream ReadableStream :=
  arg0 <- tailBytes ;;
  this <- get ;;
  ret (constructor arg0 0 (bitPos this)).

Definition available : M ReadableStream Z :=
  fun this => Ok (byteEnd this - bytePos this, this).

Definition takeBytes (length : Z) : M ReadableStream (list Z) :=
  fun this =>
    let result := JS.subarray (bytes this) (bytePos this) (bytePos this + length) in
    Ok (result, set_bitPos 0 (set_bytePos (bytePos this + length) this)).

Definition take (length : Z) : M ReadableStream ReadableStream :=
  arg0 <- takeBytes length ;;
  ret (constructor arg0 0 0).

(** A fixed-width read through [#view], then [bytePos += width]. *)
Definition view_read {A} (get : list Z -> Z -> Result A) (width : Z)
  : M ReadableStream A :=
  fun this =>
    match get (bytes this) (bytePos this) with
    | Ok result => Ok (result, set_bytePos (bytePos this + width) this)
    | Throw e => Throw e
    end.

(** [this.#view.getUint8(this.bytePos++)]: the increment comes before the
    access, so it is kept (on [this]) even when the access throws; the
    exception leaves no state in this model. *)
Definition readSint8 : M ReadableStream Z := view_read DataView.getInt8 1.
Definition readSint16LE : M ReadableStream Z :=
  view_read (fun v p => DataView.getInt16 v p true) 2.
Definition readSint32LE : M ReadableStream Z :=
  view_read (fun v p => DataView.getInt32 v p true) 4.
Definition readUint8 : M ReadableStream Z := view_read DataView.getUint8 1.
Definition peekUint8 : M ReadableStream Z := view_read DataView.getUint8 0.
Definition readUint16BE : M ReadableStream Z :=
  view_read (fun v p => DataView.getUint16 v p false) 2.
Definition readUint16LE : M ReadableStream Z :=
  view_read (fun v p => DataView.getUint16 v p true) 2.
Definition readUint32BE : M ReadableStream Z :=
  view_read (fun v p => DataView.getUint32 v p false) 4.
Definition readUint32LE : M ReadableStream Z :=
  view_read (fun v p => DataView.getUint32 v p true) 4.

Definition readFloat16BE : M ReadableStream Float16 :=
  u16 <- view_read (fun v p => DataView.getUint16 v p false) 2 ;;
  ret (reinterpretUint16AsFloat16 u16).

Definition readFloat16LE : M ReadableStream Float16 :=
  u16 <- view_read (fun v p => DataView.getUint16 v p true) 2 ;;
  ret (reinterpretUint16AsFloat16 u16).

Definition readFloat64BE : M ReadableStream Float64 :=
  view_read (fun v p => DataView.getFloat64 v p false) 8.

Definition readFloat64LE : M ReadableStream Float64 :=
  view_read (fun v p => DataView.getFloat64 v p true) 8.

(** [readFloat64LE32] goes through the module's shared [TMP_BUFFER]
    (8 bytes): its content is an input and an output of the method. *)
Definition readFloat64LE32 (TMP_BUFFER : list Z)
  : M ReadableStream (Float64 * list Z) :=
  fun this =>
    match DataView.getUint32 (bytes this) (bytePos this + 4) true with
    | Throw e => Throw e
    | Ok hi =>
      match DataView.setUint32 TMP_BUFFER 0 hi true with
      | Throw e => Throw e
      | Ok tmp1 =>
        match DataView.getUint32 (bytes this) (bytePos this) true with
        | Throw e => Throw e
        | Ok lo =>
          match DataView.setUint32 tmp1 4 lo true with
          | Throw e => Throw e
          | Ok tmp2 =>
            match DataView.getFloat64 tmp2 0 true with
            | Throw e => Throw e
            | Ok result =>
                Ok ((result, tmp2), set_bytePos (bytePos this + 8) this)
            end
          end
        end
      end
    end.

Definition skip (size : Z) : M ReadableStream unit :=
  fun this => Ok (tt, set_bytePos (bytePos this + size) this).

(** The [for (let i = 0; i < 5; i++)] loop of [readUint32Leb128], with
    [k = 5 - i] iterations left. *)
Fixpoint readUint32Leb128_loop (k : nat) (i result : Z) (this : ReadableStream)
  : Z * ReadableStream :=
  match k with
  | O => (result, this)
  | S k' =>
      let nextByte := JS.elem (bytes this) (bytePos this) in
      let this := set_bytePos (bytePos this + 1) this in
      let result :=
        if i <? 4 then result + JS.shl (JS.band (JS.int_of nextByte) 0x7f) (7 * i)
        else result + JS.band (JS.int_of nextByte) 0x0f * 2 ^ 28 in
      if JS.band (JS.int_of nextByte) (JS.shl 1 7) =? 0 then (result, this)
      else readUint32Leb128_loop k' (i + 1) result this
  end.

Definition readUint32Leb128 : M ReadableStream Z :=
  fun this => Ok (readUint32Leb128_loop 5 0 0 this).

(** The [while (n > 0)] loop of [readUintBits]. *)
Equations readUintBits_loop (n result : Z) (this : ReadableStream)
  : Z * ReadableStream by wf (bits_measure n (bitPos this)) lt :=
readUintBits_loop n result this with inspect (0 <? n) => {
  | exist _ false _ => (result, this)
  | exist _ true Hn =>
      if bitPos this + n <? 8 then
        let endBitPos := bitPos this + n in
        let shift := JS.shl 1 (endBitPos - bitPos this) in
        let cur := JS.band (JS.shru (JS.int_of (JS.elem (bytes this) (bytePos this)))
                                    (8 - endBitPos))
                           (shift - 1) in
        readUintBits_loop 0 (result * shift + cur) (set_bitPos endBitPos this)
      else
        let shift := JS.shl 1 (8 - bitPos this) in
        let cur := JS.band (JS.int_of (JS.elem (bytes this) (bytePos this)))
                           (shift - 1) in
        readUintBits_loop (n - (8 - bitPos this)) (result * shift + cur)
          (set_bytePos (bytePos this + 1) (set_bitPos 0 this)) }.
Next Obligation.
  intros n Hn result this _. cbv beta zeta in *.
  unfold set_bytePos, set_bitPos. cbn [bitPos]. bits_measure_lt.
Qed.
Next Obligation.
  intros n Hn result this _. cbv beta zeta in *.
  unfold set_bytePos, set_bitPos. cbn [bitPos]. bits_measure_lt.
Qed.

Definition readUintBits (n : Z) : M ReadableStream Z :=
  fun this =>
    if 32 <? n then Throw BitOverflow
    else Ok (readUintBits_loop n 0 this).

(** [Math.pow(2, n - 1)] and [Math.pow(2, n)] are [2 ^ (n - 1)] and [2 ^ n]
    for the widths [n >= 1] that reach them. *)
Definition readSintBits (n : Z) : M ReadableStream Z :=
  fun this =>
    if n =? 0 then Ok (0, this)
    else
      match readUintBits n this with
      | Throw e => Throw e
      | Ok (unsigned, this') =>
          if unsigned <? 2 ^ (n - 1) then Ok (unsigned, this')
          else Ok (- 2 ^ n + unsigned, this')
      end.

Definition skipBits (n : Z) : M ReadableStream unit :=
  readUintBits n ;;; ret tt.

Definition readBoolBits : M ReadableStream bool :=
  v <- readUintBits 1 ;; ret (0 <? v).

Definition readSint16Bits (n : Z) : M ReadableStream Z := readSintBits n.
Definition readSint32Bits (n : Z) : M ReadableStream Z := readSintBits n.
Definition readUint16Bits (n : Z) : M ReadableStream Z := readUintBits n.
Definition readUint32Bits (n : Z) : M ReadableStream Z := readUintBits n.

Section Utf8.

(** [UTF8_DECODER.decode], the platform's strict ([fatal: true]) decoder:
    [None] stands for the [TypeError] it throws on invalid input. *)
Variable UTF8_DECODER_decode : list Z -> option String.string.

Definition readUtf8 (byteLength : Z) : M ReadableStream String.string :=
  fun this =>
    let endOfString := bytePos this + byteLength in
    if Z.of_nat (length (bytes this)) <? endOfString then Throw IncompleteStream
    else
      let slice := JS.subarray (bytes this) (bytePos this) endOfString in
      match UTF8_DECODER_decode slice with
      | None => Throw DecodeError
      | Some result => Ok (result, set_bytePos endOfString this)
      end.

Definition readNulUtf8 : M ReadableStream String.string :=
  fun this =>
    let endOfString := JS.indexOf0 (bytes this) (bytePos this) in
    if endOfString <? 0 then Throw IncompleteStream
    else
      let slice := JS.subarray (bytes this) (bytePos this) endOfString in
      match UTF8_DECODER_decode slice with
      | None => Throw DecodeError
      | Some result => Ok (result, set_bytePos (endOfString + 1) this)
      end.

End Utf8.

(** The reader's data-model invariants: the view ends at [#byteEnd], its
    elements are bytes, and the cursor lies inside the buffer. *)
Definition is_bytes (l : list Z) : Prop := Forall (fun b => 0 <= b < 256) l.

Record wf (this : ReadableStream) : Prop := {
  wf_bytes : is_bytes (bytes this);
  wf_byteEnd : byteEnd this = Z.of_nat (length (bytes this));
  wf_bytePos : 0 <= bytePos this <= byteEnd this;
  wf_bitPos : 0 <= bitPos this < 8
}.

End Readable.

(* ================================================================== *)
(** ** [WritableStream] *)

(** Modelled from the spec: [concatBytes] of [./concat-bytes.js], which is
    not among the sources.  The spec calls it the byte-array concatenation
    helper: [getBytes] "concatenates the chunk sequence into one contiguous
    owned buffer". *)
Definition concatBytes (chunks : list (list Z)) : list Z := concat chunks.

(** [P i && P (i + 1) && ... && P (i + k - 1)]. *)
Fixpoint check_from (P : Z -> bool) (k : nat) (i : Z) : bool :=
  match k with
  | O => true
  | S k' => P i && check_from P k' (i + 1)
  end.

(** Termination measure of the [while] loop of [writeUint32Leb128]. *)
Definition leb128_measure (value : Z) (chunk : list Z) : nat :=
  Nat.add (if value =? 0 then O else S (Z.to_nat (Z.log2 (Z.abs value))))
          (if Z.of_nat (length chunk) =? 0 then 1%nat else 0%nat).

Module Writable.

Record WritableStream : Type := mkWritableStream {
  bytePos : Z;
  bitPos : Z;
  chunks : list (list Z);   (* #chunks *)
  bitsBuffer : Z            (* #bitsBuffer *)
}.

Definition set_bitPos (v : Z) (this : WritableStream) : WritableStream :=
  {| bytePos := bytePos this; bitPos := v; chunks := chunks this;
     bitsBuffer := bitsBuffer this |}.

Definition set_bitsBuffer (v : Z) (this : WritableStream) : WritableStream :=
  {| bytePos := bytePos this; bitPos := bitPos this; chunks := chunks this;
     bitsBuffer := v |}.

Definition set_chunks (v : list (list Z)) (this : WritableStream) : WritableStream :=
  {| bytePos := bytePos this; bitPos := bitPos this; chunks := v;
     bitsBuffer := bitsBuffer this |}.

Definition constructor : WritableStream :=
  {| bytePos := 0; bitPos := 0; bitsBuffer := 0; chunks := [] |}.

(** [this.#chunks.push(chunk); this.bytePos += n]. *)
Definition push (chunk : list Z) (n : Z) (this : WritableStream) : WritableStream :=
  {| bytePos := bytePos this + n; bitPos := bitPos this;
     chunks := chunks this ++ [chunk]; bitsBuffer := bitsBuffer this |}.

(** The state change of [writeUint8(value)]; [Buffer.from] of an array
    keeps every element modulo 256. *)
Definition do_writeUint8 (value : Z) (this : WritableStream) : WritableStream :=
  push (JS.Uint8Array_from [JS.band value 0xff]) 1 this.

Definition writeUint8 (value : Z) : M WritableStream unit :=
  modify (do_writeUint8 value).

Definition asBitStream : M WritableStream unit := ret tt.

Definition align : M WritableStream unit :=
  fun this =>
    if negb (bitPos this =? 0)
    then Ok (tt, set_bitsBuffer 0 (set_bitPos 0 (do_writeUint8 (bitsBuffer this) this)))
    else Ok (tt, this).

Definition asByteStream : M WritableStream unit := align.

Definition writeBytes (value : list Z) : M WritableStream unit :=
  modify (push value (Z.of_nat (length value))).

(** [new Uint8Array(size)] throws a [RangeError] on a negative size. *)
Definition writeZeros (size : Z) : M WritableStream unit :=
  fun this =>
    if size <? 0 then Throw RangeError
    else Ok (tt, push (repeat 0 (Z.to_nat size)) size this).

Definition writeZerosBits (size : Z) : M WritableStream unit :=
  fun this =>
    if bitPos this + size <? 8 then Ok (tt, set_bitPos (bitPos this + size) this)
    else
      let this1 := set_bitsBuffer 0 (do_writeUint8 (bitsBuffer this) this) in
      let size := size - (8 - bitPos this1) in
      let bitPos := Z.rem size 8 in
      match writeZeros ((size - bitPos) / 8) this1 with
      | Throw e => Throw e
      | Ok (_, this2) => Ok (tt, set_bitPos bitPos this2)
      end.

Definition writeSint32LE (value : Z) : M WritableStream unit :=
  modify (push (JS.Uint8Array_from
                  [JS.band (JS.shru value 0) 0xff; JS.band (JS.shru value 8) 0xff;
                   JS.band (JS.shru value 16) 0xff; JS.band (JS.shru value 24) 0xff]) 4).

Definition writeUint16BE (value : Z) : M WritableStream unit :=
  modify (push (JS.Uint8Array_from
                  [JS.band (JS.shru value 8) 0xff; JS.band (JS.shru value 0) 0xff]) 2).

Definition writeUint16LE (value : Z) : M WritableStream unit :=
  modify (push (JS.Uint8Array_from
                  [JS.band (JS.shru value 0) 0xff; JS.band (JS.shru value 8) 0xff]) 2).

Definition writeUint32BE (value : Z) : M WritableStream unit :=
  modify (push (JS.Uint8Array_from
                  [JS.band (JS.shru value 24) 0xff; JS.band (JS.shru value 16) 0xff;
                   JS.band (JS.shru value 8) 0xff; JS.band (JS.shru value 0) 0xff]) 4).

Definition writeUint32LE (value : Z) : M WritableStream unit :=
  writeSint32LE (JS.bor value 0).

Definition writeSint8 (value : Z) : M WritableStream unit :=
  writeUint8 (if value <? 0 then JS.shl 1 8 + value else value).

Definition writeSint16LE (value : Z) : M WritableStream unit :=
  writeUint16LE (if value <? 0 then JS.shl 1 16 + value else value).

(** The [while (value !== 0 || chunk.length === 0)] loop of
    [writeUint32Leb128]; [value - nextByte] is a multiple of [0x80], so the
    division is exact. *)
Equations leb128_loop (value : Z) (chunk : list Z) : list Z
  by wf (leb128_measure value chunk) lt :=
leb128_loop value chunk
  with inspect (negb (value =? 0) || (Z.of_nat (length chunk) =? 0)) => {
  | exist _ false _ => chunk
  | exist _ true Hc =>
      let nextByte := Z.rem value 0x80 in
      let value' := (value - nextByte) / 0x80 in
      let nextByte' := if negb (value' =? 0) then JS.bor nextByte 0x80 else nextByte in
      leb128_loop value' (chunk ++ [nextByte']) }.
Next Obligation.
  intros value chunk Hc _. cbv beta zeta in *.
  unfold leb128_measure. rewrite length_app. cbn [length].
  assert (Hq : (value - Z.rem value 128) / 128 = Z.quot value 128).
  { pose proof (Z.quot_rem' value 128) as E.
    replace (value - Z.rem value 128) with (Z.quot value 128 * 128) by lia.
    apply Z.div_mul. lia. }
  rewrite Hq.
  replace (Z.of_nat (length chunk + 1) =? 0) with false
    by (symmetry; apply Z.eqb_neq; lia).
  destruct (Z.eqb_spec (Z.quot value 128) 0) as [_|Hq0].
  - destruct (Z.eqb_spec value 0) as [->|Hv].
    + cbn in Hc. rewrite Hc. lia.
    + lia.
  - assert (Hv : value <> 0) by (intros ->; apply Hq0; reflexivity).
    destruct (Z.eqb_spec value 0) as [|_]; [contradiction|].
    assert (Hlt : Z.abs (Z.quot value 128) < 2 ^ Z.log2 (Z.abs value)).
    { rewrite <- Z.quot_abs by lia. change (Z.abs 128) with 128.
      pose proof (Z.log2_spec (Z.abs value) ltac:(lia)) as [_ Hup].
      rewrite Z.pow_succ_r in Hup by apply Z.log2_nonneg.
      apply Z.quot_lt_upper_bound; lia. }
    apply Z.log2_lt_pow2 in Hlt; [|lia].
    pose proof (Z.log2_nonneg (Z.abs (Z.quot value 128))).
    lia.
Qed.

Definition writeUint32Leb128 (value : Z) : M WritableStream unit :=
  fun this =>
    let chunk := leb128_loop value [] in
    Ok (tt, push (JS.Uint8Array_from chunk) (Z.of_nat (length chunk)) this).

Definition getBytes : M WritableStream (list Z) :=
  fun this =>
    let bytes := concatBytes (chunks this) in
    Ok (bytes, set_chunks [bytes] this).

(** [write(value)] calls [value.getBytes()], which changes [value]: the
    result is the new state of [value]. *)
Definition write (value : WritableStream) : M WritableStream WritableStream :=
  fun this =>
    match getBytes value with
    | Throw e => Throw e
    | Ok (bytes, value') =>
        match writeBytes bytes this with
        | Throw e => Throw e
        | Ok (_, this') => Ok (value', this')
        end
    end.

(** One turn of the loop of [writeUintBits], up to
    [this.bitPos += consumedBits]. *)
Definition consumedBits (bits : Z) (this : WritableStream) : Z :=
  let availableBits := 8 - bitPos this in
  Z.min availableBits bits.

Definition fill_bits (bits value : Z) (this : WritableStream) : WritableStream :=
  let availableBits := 8 - bitPos this in
  let consumedBits := Z.min availableBits bits in
  let chunk := JS.band (JS.shru value (bits - consumedBits))
                       (JS.shl 1 consumedBits - 1) in
  let this := set_bitsBuffer
                (JS.bor (bitsBuffer this) (JS.shl chunk (availableBits - consumedBits)))
                this in
  set_bitPos (bitPos this + consumedBits) this.

(** The body of [if (this.bitPos === 8)]. *)
Definition flush_bits (this : WritableStream) : WritableStream :=
  set_bitPos 0 (set_bitsBuffer 0 (do_writeUint8 (bitsBuffer this) this)).

(** The [while (bits > 0)] loop of [writeUintBits]. *)
Equations writeUintBits_loop (bits value : Z) (this : WritableStream)
  : WritableStream by wf (bits_measure bits (bitPos this)) lt :=
writeUintBits_loop bits value this with inspect (0 <? bits) => {
  | exist _ false _ => this
  | exist _ true Hb with inspect (bitPos (fill_bits bits value this) =? 8) => {
    | exist _ true _ =>
        writeUintBits_loop (bits - consumedBits bits this) value
          (flush_bits (fill_bits bits value this))
    | exist _ false Hne =>
        writeUintBits_loop (bits - consumedBits bits this) value
          (fill_bits bits value this) } }.
Next Obligation.
  intros bits Hb value this _ _. cbv beta zeta in *.
  unfold flush_bits, fill_bits, consumedBits, do_writeUint8, push,
    set_bitPos, set_bitsBuffer. cbn [bitPos].
  bits_measure_lt.
Qed.
Next Obligation.
  intros bits Hb value this Hne _. cbv beta zeta in *.
  apply Z.eqb_neq in Hne. revert Hne.
  unfold flush_bits, fill_bits, consumedBits, do_writeUint8, push,
    set_bitPos, set_bitsBuffer. cbn [bitPos]. intros Hne.
  bits_measure_lt.
Qed.

Definition writeUintBits (bits value : Z) : M WritableStream unit :=
  fun this =>
    if 32 <? bits then Throw BitOverflow
    else Ok (tt, writeUintBits_loop bits value this).

(** [2 ** bits] is [2 ^ bits] for the widths [bits >= 0] of the callers. *)
Definition writeSintBits (bits value : Z) : M WritableStream unit :=
  if value <? 0 then writeUintBits bits (2 ^ bits + value)
  else writeUintBits bits value.

Definition writeBoolBits (value : bool) : M WritableStream unit :=
  writeUintBits 1 (if value then 1 else 0).

Definition writeSint16Bits (n value : Z) : M WritableStream unit := writeSintBits n value.
Definition writeSint32Bits (n value : Z) : M WritableStream unit := writeSintBits n value.
Definition writeUint16Bits (n value : Z) : M WritableStream unit := writeUintBits n value.
Definition writeUint32Bits (n value : Z) : M WritableStream unit := writeUintBits n value.

End Writable.

(* ================================================================== *)
(** ** Specification-side definitions *)

Module Spec.

Import Readable.

(** The bytes from the cursor of a reader to its end. *)
Definition remaining (this : ReadableStream) : list Z :=
  firstn (Z.to_nat (byteEnd this - bytePos this))
         (skipn (Z.to_nat (bytePos this)) (bytes this)).

(** The bytes at the positions [bytePos], ..., [e - 1] of a reader. *)
Definition bytes_between (this : ReadableStream) (e : Z) : list Z :=
  firstn (Z.to_nat (e - bytePos this))
         (skipn (Z.to_nat (bytePos this)) (bytes this)).

(** [e] is the position of the first zero byte at or after the cursor. *)
Definition first_zero (this : ReadableStream) (e : Z) : Prop :=
  bytePos this <= e
  /\ JS.elem (bytes this) e = Some 0
  /\ forall j, bytePos this <= j < e -> JS.elem (bytes this) j <> Some 0.

Definition no_zero (this : ReadableStream) : Prop :=
  forall j, bytePos this <= j -> JS.elem (bytes this) j <> Some 0.

(** The bytes [l] stand at the cursor of the reader. *)
Definition at_cursor (this : ReadableStream) (l : list Z) : Prop :=
  0 <= bytePos this
  /\ exists rest, skipn (Z.to_nat (bytePos this)) (bytes this) = l ++ rest.

(** A strict decoder of the ASCII subset of UTF-8, for examples. *)
Fixpoint decode_ascii (l : list Z) : option String.string :=
  match l with
  | [] => Some String.EmptyString
  | b :: l' =>
      if (0 <=? b) && (b <? 128) then
        match decode_ascii l' with
        | Some s => Some (String.String (Ascii.ascii_of_N (Z.to_N b)) s)
        | None => None
        end
      else None
  end.

(** Two byte sequences agree from a cursor at bit [bitPos]: byte for byte,
    but the first (partial) byte only on its low [8 - bitPos] bits when
    [bitPos] is not zero. *)
Definition same_remaining (bitPos : Z) (l r : list Z) : Prop :=
  if bitPos =? 0 then l = r
  else match l, r with
       | [], [] => True
       | a :: l', b :: r' =>
           a mod 2 ^ (8 - bitPos) = b mod 2 ^ (8 - bitPos) /\ l' = r'
       | _, _ => False
       end.

Definition readers_equal (L R : ReadableStream) : Prop :=
  bitPos L = bitPos R /\ same_remaining (bitPos L) (remaining L) (remaining R).

(** Two's-complement reinterpretation of [u] over [n >= 1] bits. *)
Definition twos_complement (n u : Z) : Z :=
  if 2 ^ (n - 1) <=? u then u - 2 ^ n else u.

(** The value of an IEEE-754 binary16 pattern. *)
Inductive binary16_value : Type :=
| Finite (q : Q)
| Infinite (negative : bool)
| NotANumber.

(** The fields of the pattern [u16]: sign bit, 5 exponent bits, 10
    fraction bits. *)
Definition field_S (u16 : Z) : Z := (u16 / 2 ^ 15) mod 2.
Definition field_E (u16 : Z) : Z := (u16 / 2 ^ 10) mod 2 ^ 5.
Definition field_F (u16 : Z) : Z := u16 mod 2 ^ 10.

Definition two_to (e : Z) : Q := Qpower (2 # 1) e.

Definition binary16_of_fields (S E F : Z) : binary16_value :=
  let sign : Q := if S =? 1 then (-1 # 1) else (1 # 1) in
  if E =? 0 then
    Finite (sign * two_to (-14) * (inject_Z F / inject_Z 1024))%Q
  else if E =? 31 then
    if F =? 0 then Infinite (S =? 1) else NotANumber
  else
    Finite (sign * two_to (E - 15) * (1 + inject_Z F / inject_Z 1024))%Q.

Definition binary16 (u16 : Z) : binary16_value :=
  binary16_of_fields (field_S u16) (field_E u16) (field_F u16).

(** The exact value of a double. *)
Definition value_of (x : float) : binary16_value :=
  match Prim2SF x with
  | S754_zero _ => Finite 0
  | S754_infinity s => Infinite s
  | S754_nan => NotANumber
  | S754_finite s m e =>
      Finite ((if s then (-1 # 1) else (1 # 1)) * inject_Z (Z.pos m) * two_to e)%Q
  end.

Definition same_value (a b : binary16_value) : bool :=
  match a, b with
  | Finite p, Finite q => Qeq_bool p q
  | Infinite s, Infinite t => Bool.eqb s t
  | NotANumber, NotANumber => true
  | _, _ => false
  end.

(** The sign of a double that is not a NaN: [true] for negative numbers,
    [-0] and [-Infinity]. *)
Definition sign_of (x : float) : option bool :=
  match Prim2SF x with
  | S754_zero s | S754_infinity s | S754_finite s _ _ => Some s
  | S754_nan => None
  end.

(** The double computed from the fields [S], [E], [F] has the value and
    the sign that the binary16 pattern with these fields denotes. *)
Definition decodes_correctly (S E F : Z) : bool :=
  let x := float16_of_fields (if S =? 1 then -1 else 1) E F in
  same_value (value_of x) (binary16_of_fields S E F)
  && match sign_of x with
     | Some s => Bool.eqb s (S =? 1)
     | None => (E =? 31) && negb (F =? 0)
     end.

End Spec.

(* ================================================================== *)
(** ** Arithmetic of the 32-bit operators *)

Module JSFacts.

Import JS.

Lemma ToInt32_small x : - 2 ^ 31 <= x < 2 ^ 31 -> ToInt32 x = x.
Proof.
  intros H. unfold ToInt32.
  rewrite Z.mod_small by lia. lia.
Qed.

Lemma ToUint32_small x : 0 <= x < 2 ^ 32 -> ToUint32 x = x.
Proof. intros H. unfold ToUint32. apply Z.mod_small. lia. Qed.

Lemma band_small a b :
  - 2 ^ 31 <= a < 2 ^ 31 -> - 2 ^ 31 <= b < 2 ^ 31 -> band a b = Z.land a b.
Proof. intros Ha Hb. unfold band. now rewrite !ToInt32_small. Qed.

Lemma band_ones a k :
  0 <= a < 2 ^ 31 -> 0 <= k <= 31 -> band a (2 ^ k - 1) = a mod 2 ^ k.
Proof.
  intros Ha Hk.
  assert (2 ^ k <= 2 ^ 31) by (apply Z.pow_le_mono_r; lia).
  assert (0 < 2 ^ k) by (apply Z.pow_pos_nonneg; lia).
  rewrite band_small by lia.
  replace (2 ^ k - 1) with (Z.ones k) by (rewrite Z.ones_equiv; lia).
  apply Z.land_ones. lia.
Qed.

Lemma shl_small a n :
  0 <= n < 32 -> - 2 ^ 31 <= a < 2 ^ 31 -> - 2 ^ 31 <= a * 2 ^ n < 2 ^ 31 ->
  shl a n = a * 2 ^ n.
Proof.
  intros Hn Ha Hb. unfold shl.
  rewrite (ToInt32_small a) by lia.
  unfold ToUint32. rewrite (Z.mod_small n 4294967296) by lia.
  rewrite (Z.mod_small n 32) by lia.
  rewrite Z.shiftl_mul_pow2 by lia.
  apply ToInt32_small. lia.
Qed.

Lemma shl_1 n : 0 <= n <= 30 -> shl 1 n = 2 ^ n.
Proof.
  intros Hn.
  assert (2 ^ n <= 2 ^ 30) by (apply Z.pow_le_mono_r; lia).
  assert (0 < 2 ^ n) by (apply Z.pow_pos_nonneg; lia).
  rewrite shl_small; lia.
Qed.

Lemma shru_small a n :
  0 <= n < 32 -> 0 <= a < 2 ^ 32 -> shru a n = a / 2 ^ n.
Proof.
  intros Hn Ha. unfold shru.
  rewrite (ToUint32_small a) by lia.
  unfold ToUint32. rewrite (Z.mod_small n 4294967296) by lia.
  rewrite (Z.mod_small n 32) by lia.
  apply Z.shiftr_div_pow2. lia.
Qed.

Lemma strict_eq_true a b : strict_eq a b = true <-> a = b.
Proof.
  destruct a as [x|], b as [y|]; simpl; split; intros H;
    try discriminate; try reflexivity.
  - apply Z.eqb_eq in H. now subst.
  - injection H as ->. apply Z.eqb_refl.
Qed.

Lemma elem_nth (a : list Z) (j : Z) :
  0 <= j -> JS.elem a j = nth_error a (Z.to_nat j).
Proof. intros Hj. unfold JS.elem. destruct (Z.ltb_spec j 0); [lia|reflexivity]. Qed.

Lemma elem_Some_lt (a : list Z) (j b : Z) :
  JS.elem a j = Some b -> 0 <= j < Z.of_nat (length a).
Proof.
  unfold JS.elem. destruct (Z.ltb_spec j 0); [discriminate|]. intros E.
  assert (Hn : nth_error a (Z.to_nat j) <> None) by (rewrite E; discriminate).
  apply nth_error_Some in Hn. lia.
Qed.

End JSFacts.

(* ================================================================== *)
(** ** Checking a range of integers *)

Module Enumerate.

(** A property of the numbers below [n], checked by enumeration. *)
Lemma check_from_sound (P : Z -> bool) (k : nat) :
  forall i, check_from P k i = true ->
  forall x, i <= x < i + Z.of_nat k -> P x = true.
Proof.
  induction k as [|k IH]; intros i H x Hx; [lia|].
  cbn [check_from] in H. apply andb_true_iff in H. destruct H as [Hi Hk].
  destruct (Z.eq_dec x i) as [->|Hne]; [exact Hi|].
  apply (IH (i + 1) Hk). lia.
Qed.

Lemma forall_below (n : Z) (P : Z -> bool) :
  check_from P (Z.to_nat n) 0 = true ->
  forall x, 0 <= x < n -> P x = true.
Proof.
  intros H x Hx. apply (check_from_sound P (Z.to_nat n) 0 H). lia.
Qed.

End Enumerate.

(* ================================================================== *)
(** ** The reader's cursor *)

Module ReaderCursor.

Import Readable.

(** C10: for every reader state, whatever its [bitPos], the reader returned
    by [tail()] has [bitPos = 0] ([tailBytes()] has reset [this.bitPos]
    before the third constructor argument is evaluated), and after [tail()]
    or [tailBytes()] the original reader's cursor stands at the end of the
    buffer with [bitPos = 0]. *)
Theorem tail_bitPos_is_reset (this : ReadableStream) :
  (exists t this',
      tail this = Ok (t, this')
      /\ t = constructor (JS.subarray_from (bytes this) (bytePos this)) 0 0
      /\ bitPos t = 0
      /\ bytePos this' = byteEnd this /\ byteEnd this' = byteEnd this
      /\ bitPos this' = 0)
  /\ (exists bs this',
      tailBytes this = Ok (bs, this')
      /\ bytePos this' = byteEnd this /\ byteEnd this' = byteEnd this
      /\ bitPos this' = 0).
Proof.
  split.
  - eexists; eexists. unfold tail, bind, tailBytes, get, ret. cbn.
    repeat split; reflexivity.
  - eexists; eexists. unfold tailBytes. repeat split; reflexivity.
Qed.

(** The position after the loop of [readUint32Leb128]: between one and [k]
    bytes are consumed, and no byte after one whose bit 7 is clear. *)
Lemma readUint32Leb128_loop_pos (k : nat) :
  forall i result this,
    let out := readUint32Leb128_loop k i result this in
    bytes (snd out) = bytes this
    /\ byteEnd (snd out) = byteEnd this
    /\ bitPos (snd out) = bitPos this
    /\ bytePos this <= bytePos (snd out) <= bytePos this + Z.of_nat k
    /\ (k <> O -> bytePos this < bytePos (snd out))
    /\ (forall j b, 0 <= j < Z.of_nat k ->
          JS.elem (bytes this) (bytePos this + j) = Some b ->
          JS.band b 0x80 = 0 ->
          bytePos (snd out) <= bytePos this + j + 1).
Proof.
  induction k as [|k IH]; intros i result this out; subst out.
  - cbn. repeat split; intros; lia.
  - cbn [readUint32Leb128_loop].
    change (JS.shl 1 7) with 128.
    destruct (JS.band (JS.int_of (JS.elem (bytes this) (bytePos this))) 128 =? 0)
      eqn:Hstop.
    + cbn. repeat split; intros; lia.
    + match goal with |- context [readUint32Leb128_loop k ?i' ?r' ?t'] =>
        specialize (IH i' r' t') end.
      cbv zeta in IH. cbn [set_bytePos bytes byteEnd bitPos bytePos] in IH.
      destruct IH as (Hb & He & Hbit & Hpos & _ & Hterm).
      repeat split; try assumption; try lia.
      intros j b Hj Hel Hband.
      destruct (Z.eq_dec j 0) as [->|Hj0].
      * rewrite Z.add_0_r in Hel. rewrite Hel in Hstop. cbn in Hstop.
        rewrite Hband in Hstop. discriminate.
      * specialize (Hterm (j - 1) b).
        replace (bytePos this + 1 + (j - 1)) with (bytePos this + j) in Hterm by lia.
        specialize (Hterm ltac:(lia) Hel Hband). lia.
Qed.

(** C1 (amended): [skip(n)] and [takeBytes(n)] never fail; they set
    [bytePos] to [bytePos + n], so that [bytePos <= byteEnd] holds after
    them exactly when [bytePos + n <= byteEnd] held before.  On a
    well-formed reader with five bytes available, or with a byte of the
    buffer whose bit 7 is clear at one of the next five positions,
    [readUint32Leb128] returns a value after consuming between one and
    five bytes and leaves [bytePos <= byteEnd]. *)
Theorem cursor_after_skip_takeBytes_leb128 (this : ReadableStream) (n : Z) :
  skip n this = Ok (tt, set_bytePos (bytePos this + n) this)
  /\ takeBytes n this
     = Ok (JS.subarray (bytes this) (bytePos this) (bytePos this + n),
           set_bitPos 0 (set_bytePos (bytePos this + n) this))
  /\ (forall this', skip n this = Ok (tt, this') ->
        (bytePos this' <= byteEnd this' <-> bytePos this + n <= byteEnd this))
  /\ (forall bs this', takeBytes n this = Ok (bs, this') ->
        (bytePos this' <= byteEnd this' <-> bytePos this + n <= byteEnd this))
  /\ (wf this ->
      bytePos this + 5 <= byteEnd this
      \/ (exists j b, 0 <= j < 5
            /\ JS.elem (bytes this) (bytePos this + j) = Some b
            /\ JS.band b 0x80 = 0) ->
      exists v this',
        readUint32Leb128 this = Ok (v, this')
        /\ byteEnd this' = byteEnd this
        /\ bytePos this < bytePos this' <= bytePos this + 5
        /\ bytePos this' <= byteEnd this').
Proof.
  split; [reflexivity|]. split; [reflexivity|].
  split. { intros this' H. injection H as <-. cbn. lia. }
  split. { intros bs this' H. injection H as _ <-. cbn. lia. }
  intros Hwf Hin.
  pose proof (readUint32Leb128_loop_pos 5 0 0 this) as L.
  cbv zeta in L. unfold readUint32Leb128.
  destruct (readUint32Leb128_loop 5 0 0 this) as [v this'] eqn:E.
  cbn [snd] in L. destruct L as (Hb & He & _ & Hpos & Hlt & Hterm).
  exists v, this'.
  split; [reflexivity|]. split; [assumption|].
  split. { specialize (Hlt ltac:(discriminate)). lia. }
  destruct Hin as [Hfive | (j & b & Hj & Hel & Hband)].
  - lia.
  - specialize (Hterm j b ltac:(lia) Hel Hband).
    pose proof (JSFacts.elem_Some_lt _ _ _ Hel) as Hin.
    pose proof (wf_byteEnd this Hwf). lia.
Qed.

(** A well-formed reader over [[0x80; 0x01; 3]]: [skip(2)] stays inside
    the buffer, and the integer 128 is read from its two bytes. *)
Lemma cursor_after_skip_takeBytes_leb128_witness :
  wf (constructor [0x80; 0x01; 3] 0 0)
  /\ skip 2 (constructor [0x80; 0x01; 3] 0 0)
     = Ok (tt, set_bytePos 2 (constructor [0x80; 0x01; 3] 0 0))
  /\ exists v this',
       readUint32Leb128 (constructor [0x80; 0x01; 3] 0 0) = Ok (v, this')
       /\ byteEnd this' = byteEnd (constructor [0x80; 0x01; 3] 0 0)
       /\ bytePos (constructor [0x80; 0x01; 3] 0 0) < bytePos this'
          <= bytePos (constructor [0x80; 0x01; 3] 0 0) + 5
       /\ bytePos this' <= byteEnd this'.
Proof.
  assert (Hwf : wf (constructor [0x80; 0x01; 3] 0 0)).
  { constructor; cbn; try lia.
    unfold is_bytes. repeat (apply Forall_cons; [lia|]). apply Forall_nil. }
  split; [exact Hwf|].
  pose proof (cursor_after_skip_takeBytes_leb128 (constructor [0x80; 0x01; 3] 0 0) 2)
    as (Hskip & _ & _ & _ & Hleb).
  split; [exact Hskip|].
  apply (Hleb Hwf). right. exists 1, 1. split; [lia|]. split; reflexivity.
Defined.

(** C1 as stated fails: on the one-byte buffer [[7]], [skip(2)] and
    [takeBytes(2)] succeed and leave [bytePos = 2 > byteEnd = 1]; on the
    empty buffer [readUint32Leb128] returns [0] and leaves
    [bytePos = 1 > byteEnd = 0]. *)
Lemma cursor_bound_counterexample :
  (exists this', skip 2 (constructor [7] 0 0) = Ok (tt, this')
                 /\ byteEnd this' < bytePos this')
  /\ (exists bs this', takeBytes 2 (constructor [7] 0 0) = Ok (bs, this')
                       /\ byteEnd this' < bytePos this')
  /\ (exists v this', readUint32Leb128 (constructor [] 0 0) = Ok (v, this')
                      /\ v = 0 /\ byteEnd this' < bytePos this').
Proof.
  repeat split.
  - eexists. split; [reflexivity|]. cbn. lia.
  - eexists; eexists. split; [reflexivity|]. cbn. lia.
  - eexists; eexists. split; [reflexivity|]. cbn. split; [reflexivity|lia].
Qed.

End ReaderCursor.

(* ================================================================== *)
(** ** Finalization and the bit-width guard *)

Module Finalize.

Import Writable.

(** C9: for every writer state, two calls of [getBytes] in a row return
    the same bytes, and after the first call the chunk sequence is the
    single chunk that was returned. *)
Theorem getBytes_twice (this : WritableStream) :
  exists bytes this1,
    getBytes this = Ok (bytes, this1)
    /\ chunks this1 = [bytes]
    /\ getBytes this1 = Ok (bytes, this1).
Proof.
  exists (concatBytes (chunks this)), (set_chunks [concatBytes (chunks this)] this).
  split; [reflexivity|]. split; [reflexivity|].
  unfold getBytes, concatBytes, set_chunks. cbn [chunks concat].
  now rewrite app_nil_r.
Qed.

End Finalize.

Module BitWidth.

(** C3: with a width [n > 32] every bit-level read ([readUintBits],
    [readUint32Bits], [readSint32Bits], [skipBits]) and every bit-level
    write ([writeUintBits], [writeUint32Bits], [writeSint32Bits]) throws
    [BitOverflow]; with [n <= 32] each of them returns. *)
Theorem bit_width_guard (n value : Z)
  (r : Readable.ReadableStream) (w : Writable.WritableStream) :
  (32 < n ->
     Readable.readUintBits n r = Throw BitOverflow
     /\ Readable.readUint32Bits n r = Throw BitOverflow
     /\ Readable.readSint32Bits n r = Throw BitOverflow
     /\ Readable.skipBits n r = Throw BitOverflow
     /\ Writable.writeUintBits n value w = Throw BitOverflow
     /\ Writable.writeUint32Bits n value w = Throw BitOverflow
     /\ Writable.writeSint32Bits n value w = Throw BitOverflow)
  /\ (n <= 32 ->
     succeeds (Readable.readUintBits n r)
     /\ succeeds (Readable.readUint32Bits n r)
     /\ succeeds (Readable.readSint32Bits n r)
     /\ succeeds (Readable.skipBits n r)
     /\ succeeds (Writable.writeUintBits n value w)
     /\ succeeds (Writable.writeUint32Bits n value w)
     /\ succeeds (Writable.writeSint32Bits n value w)).
Proof.
  unfold Readable.readUint32Bits, Readable.readSint32Bits, Readable.skipBits,
    Readable.readSintBits, Writable.writeUint32Bits, Writable.writeSint32Bits,
    Writable.writeSintBits, bind, succeeds.
  unfold Readable.readUintBits, Writable.writeUintBits.
  split; intros Hn.
  - assert (E : (32 <? n) = true) by (apply Z.ltb_lt; lia).
    assert (E0 : (n =? 0) = false) by (apply Z.eqb_neq; lia).
    rewrite E, E0. destruct (value <? 0); repeat split; reflexivity.
  - assert (E : (32 <? n) = false) by (apply Z.ltb_ge; lia).
    rewrite E.
    destruct (Readable.readUintBits_loop n 0 r) as [u r'].
    repeat split.
    + now exists u, r'.
    + now exists u, r'.
    + destruct (n =? 0); [now eexists; eexists|].
      destruct (u <? 2 ^ (n - 1)); now eexists; eexists.
    + now exists tt, r'.
    + now eexists; eexists.
    + now eexists; eexists.
    + destruct (value <? 0); now eexists; eexists.
Qed.

End BitWidth.

(* ================================================================== *)
(** ** NUL-terminated strings *)

Module NulUtf8.

Import Readable Spec.

(** [find_zero] returns [-1] on a list without zero, and otherwise the
    position of its first zero. *)
Lemma find_zero_spec (l : list Z) :
  forall i,
    (JS.find_zero l i = -1 /\ forall j, nth_error l j <> Some 0)
    \/ (exists k, JS.find_zero l i = i + Z.of_nat k
                  /\ nth_error l k = Some 0
                  /\ forall j, (j < k)%nat -> nth_error l j <> Some 0).
Proof.
  induction l as [|a l IH]; intros i.
  - left. split; [reflexivity|]. intros j. rewrite nth_error_nil. discriminate.
  - cbn [JS.find_zero]. destruct (Z.eqb_spec a 0) as [->|Ha].
    + right. exists O. split; [cbn; lia|]. split; [reflexivity|]. intros j Hj. lia.
    + destruct (IH (i + 1)) as [[E Hnone] | (k & E & Hk & Hmin)].
      * left. split; [exact E|]. intros [|j]; cbn; [congruence|apply Hnone].
      * right. exists (S k). split; [rewrite E; lia|]. split; [exact Hk|].
        intros [|j] Hj; cbn; [congruence|]. apply Hmin. lia.
Qed.

(** [subarray(bytePos, e)] holds the bytes at [bytePos], ..., [e - 1]. *)
Lemma subarray_between (this : ReadableStream) (e : Z) :
  0 <= bytePos this <= e -> e <= Z.of_nat (length (bytes this)) ->
  JS.subarray (bytes this) (bytePos this) e = bytes_between this e.
Proof.
  intros Hp He. unfold JS.subarray, JS.relative_index, bytes_between.
  destruct (Z.ltb_spec (bytePos this) 0); [lia|].
  destruct (Z.ltb_spec e 0); [lia|].
  rewrite !Z.min_l by lia. reflexivity.
Qed.

(** The two outcomes of the scan of [readNulUtf8]. *)
Lemma readNulUtf8_cases (decode : list Z -> option String.string)
  (this : ReadableStream) :
  0 <= bytePos this ->
  (exists e, first_zero this e
             /\ readNulUtf8 decode this
                = match decode (bytes_between this e) with
                  | Some s => Ok (s, set_bytePos (e + 1) this)
                  | None => Throw DecodeError
                  end)
  \/ (no_zero this /\ readNulUtf8 decode this = Throw IncompleteStream).
Proof.
  intros Hp. unfold readNulUtf8, JS.indexOf0, JS.relative_index.
  destruct (Z.ltb_spec (bytePos this) 0) as [|_]; [lia|].
  set (len := Z.of_nat (length (bytes this))).
  set (k := Z.min (bytePos this) len).
  assert (Hk : 0 <= k <= bytePos this) by (unfold k, len; lia).
  destruct (find_zero_spec (skipn (Z.to_nat k) (bytes this)) k)
    as [[E Hnone] | (k' & E & Hz & Hmin)]; rewrite E.
  - right. split; [|reflexivity].
    intros j Hj. rewrite JSFacts.elem_nth by lia.
    specialize (Hnone (Z.to_nat j - Z.to_nat k)%nat).
    rewrite nth_error_skipn in Hnone.
    replace (Z.to_nat k + (Z.to_nat j - Z.to_nat k))%nat with (Z.to_nat j) in Hnone by lia.
    exact Hnone.
  - left. rewrite nth_error_skipn in Hz.
    assert (Hlt : (Z.to_nat k + k' < length (bytes this))%nat)
      by (apply nth_error_Some; rewrite Hz; discriminate).
    assert (Hkp : k = bytePos this) by (unfold k, len in *; lia).
    exists (k + Z.of_nat k').
    destruct (Z.ltb_spec (k + Z.of_nat k') 0) as [|_]; [lia|].
    split.
    + split; [lia|]. split.
      * rewrite JSFacts.elem_nth by lia.
        replace (Z.to_nat (k + Z.of_nat k')) with (Z.to_nat k + k')%nat by lia.
        exact Hz.
      * intros j Hj. rewrite JSFacts.elem_nth by lia.
        specialize (Hmin (Z.to_nat j - Z.to_nat k)%nat ltac:(lia)).
        rewrite nth_error_skipn in Hmin.
        replace (Z.to_nat k + (Z.to_nat j - Z.to_nat k))%nat with (Z.to_nat j) in Hmin by lia.
        exact Hmin.
    + rewrite subarray_between by (unfold len in *; lia). reflexivity.
Qed.

Lemma first_zero_unique (this : ReadableStream) (e e' : Z) :
  first_zero this e -> first_zero this e' -> e = e'.
Proof.
  intros (H1 & H2 & H3) (H1' & H2' & H3').
  destruct (Z.lt_trichotomy e e') as [Hlt | [Heq | Hgt]]; [|exact Heq|].
  - exfalso. apply (H3' e); [lia|exact H2].
  - exfalso. apply (H3 e'); [lia|exact H2'].
Qed.

(** C7: [readNulUtf8] scans forward from [bytePos] for a zero byte.  If
    the first one stands at [e], the bytes strictly between [bytePos] and
    [e] are decoded as UTF-8, the decoded string is returned and [bytePos]
    becomes [e + 1]; the only way to fail then is the strict decoder
    rejecting those bytes.  If there is no zero byte from [bytePos] to the
    end of the buffer the method throws [IncompleteStream].  A returned
    string is therefore never a truncated one. *)
Theorem readNulUtf8_spec (decode : list Z -> option String.string)
  (this : ReadableStream) (Hpos : 0 <= bytePos this) :
  (forall e, first_zero this e ->
     readNulUtf8 decode this
     = match decode (bytes_between this e) with
       | Some s => Ok (s, set_bytePos (e + 1) this)
       | None => Throw DecodeError
       end)
  /\ (no_zero this -> readNulUtf8 decode this = Throw IncompleteStream)
  /\ (forall s this',
        readNulUtf8 decode this = Ok (s, this') ->
        exists e, first_zero this e
                  /\ decode (bytes_between this e) = Some s
                  /\ this' = set_bytePos (e + 1) this).
Proof.
  destruct (readNulUtf8_cases decode this Hpos) as [(e0 & Hfz & E) | [Hno E]].
  - split; [|split].
    + intros e He. now rewrite (first_zero_unique this e e0 He Hfz).
    + intros Hno. exfalso. destruct Hfz as (H1 & H2 & _). exact (Hno e0 H1 H2).
    + intros s this' Hok. exists e0. split; [exact Hfz|].
      rewrite E in Hok. destruct (decode (bytes_between this e0)); [|discriminate].
      injection Hok as -> <-. split; reflexivity.
  - split; [|split].
    + intros e (H1 & H2 & _). exfalso. exact (Hno e H1 H2).
    + intros _. exact E.
    + intros s this' Hok. rewrite E in Hok. discriminate.
Qed.

(** The buffer ["hi\0" ++ [1]]: the string ["hi"] is returned and the
    cursor passes the NUL. *)
Lemma readNulUtf8_spec_witness :
  0 <= bytePos (constructor [104; 105; 0; 1] 0 0)
  /\ readNulUtf8 decode_ascii (constructor [104; 105; 0; 1] 0 0)
     = Ok (String.String (Ascii.ascii_of_N 104)
             (String.String (Ascii.ascii_of_N 105) String.EmptyString),
           set_bytePos 3 (constructor [104; 105; 0; 1] 0 0)).
Proof.
  assert (Hpos : 0 <= bytePos (constructor [104; 105; 0; 1] 0 0)) by (cbn; lia).
  split; [exact Hpos|].
  apply (proj1 (readNulUtf8_spec decode_ascii (constructor [104; 105; 0; 1] 0 0) Hpos) 2).
  split; [cbn; lia|]. split; [reflexivity|].
  intros j Hj. cbn in Hj.
  assert (Hc : j = 0 \/ j = 1) by lia.
  destruct Hc as [-> | ->]; discriminate.
Defined.

End NulUtf8.

(* ================================================================== *)
(** ** Equality of readers *)

Module Equality.

Import Readable Spec.

Lemma equals_loop_true (k : nat) :
  forall i L R,
    equals_loop k i L R = true
    <-> forall j, (j < k)%nat ->
          JS.elem (bytes L) (bytePos L + (i + Z.of_nat j))
          = JS.elem (bytes R) (bytePos R + (i + Z.of_nat j)).
Proof.
  induction k as [|k IH]; intros i L R; cbn [equals_loop].
  - split; [intros _ j Hj; lia | reflexivity].
  - destruct (JS.strict_eq (JS.elem (bytes L) (bytePos L + i))
                           (JS.elem (bytes R) (bytePos R + i))) eqn:E; cbn [negb].
    + apply JSFacts.strict_eq_true in E. rewrite IH. split.
      * intros H [|j] Hj.
        -- now rewrite Z.add_0_r.
        -- replace (i + Z.of_nat (S j)) with (i + 1 + Z.of_nat j) by lia.
           apply H. lia.
      * intros H j Hj.
        replace (i + 1 + Z.of_nat j) with (i + Z.of_nat (S j)) by lia.
        apply H. lia.
    + split; [discriminate|]. intros H. specialize (H O ltac:(lia)).
      rewrite Z.add_0_r in H. apply JSFacts.strict_eq_true in H. congruence.
Qed.

Lemma remaining_skipn (this : ReadableStream) :
  wf this -> remaining this = skipn (Z.to_nat (bytePos this)) (bytes this).
Proof.
  intros [_ He Hp _]. unfold remaining. apply firstn_all2.
  rewrite length_skipn. lia.
Qed.

Lemma remaining_length (this : ReadableStream) :
  wf this -> length (remaining this) = Z.to_nat (byteEnd this - bytePos this).
Proof.
  intros Hwf. rewrite remaining_skipn by assumption. destruct Hwf as [_ He Hp _].
  rewrite length_skipn. lia.
Qed.

Lemma remaining_nth (this : ReadableStream) (j : nat) :
  wf this ->
  JS.elem (bytes this) (bytePos this + Z.of_nat j) = nth_error (remaining this) j.
Proof.
  intros Hwf. rewrite remaining_skipn by assumption. destruct Hwf as [_ _ Hp _].
  rewrite JSFacts.elem_nth by lia. rewrite nth_error_skipn. f_equal. lia.
Qed.

Lemma remaining_is_bytes (this : ReadableStream) :
  wf this -> is_bytes (remaining this).
Proof.
  intros Hwf. rewrite remaining_skipn by assumption.
  destruct Hwf as [Hb _ _ _]. unfold is_bytes in *.
  rewrite <- (firstn_skipn (Z.to_nat (bytePos this)) (bytes this)) in Hb.
  apply Forall_app in Hb. exact (proj2 Hb).
Qed.

(** Two lists of the same length are equal when they agree at every
    position. *)
Lemma list_eq_pointwise (l r : list Z) (n : nat) :
  length l = n -> length r = n ->
  (l = r <-> forall j, (j < n)%nat -> nth_error l j = nth_error r j).
Proof.
  intros Hl Hr. split; [now intros ->|].
  intros H. apply nth_error_ext. intros j.
  destruct (Nat.lt_ge_cases j n) as [Hj|Hj]; [now apply H|].
  rewrite (proj2 (nth_error_None l j)) by lia.
  rewrite (proj2 (nth_error_None r j)) by lia. reflexivity.
Qed.

(** The comparison of the partial bytes keeps the low [8 - bitPos] bits. *)
Lemma partial_byte_mask (a p : Z) :
  0 <= a < 256 -> 0 < p < 8 ->
  JS.band a (JS.shl 1 (8 - p) - 1) = a mod 2 ^ (8 - p).
Proof.
  intros Ha Hp. rewrite JSFacts.shl_1 by lia.
  apply JSFacts.band_ones; lia.
Qed.

Lemma equals_iff (L R : ReadableStream) :
  wf L -> wf R -> (equals L R = true <-> readers_equal L R).
Proof.
  intros HL HR. unfold equals, readers_equal.
  pose proof (remaining_length L HL) as HlenL.
  pose proof (remaining_length R HR) as HlenR.
  pose proof (wf_bytePos L HL) as HpL. pose proof (wf_bytePos R HR) as HpR.
  pose proof (wf_bitPos L HL) as HbL.
  destruct (Z.eqb_spec (bitPos L) (bitPos R)) as [Hbit|Hbit]; cbn [negb];
    [|split; [discriminate|intros [H _]; contradiction]].
  set (leftLen := byteEnd L - bytePos L) in *.
  set (rightLen := byteEnd R - bytePos R) in *.
  assert (Hlens : same_remaining (bitPos L) (remaining L) (remaining R) ->
                  leftLen = rightLen).
  { unfold same_remaining. intros H.
    assert (length (remaining L) = length (remaining R)); [|lia].
    destruct (bitPos L =? 0); [now rewrite H|].
    destruct (remaining L), (remaining R); try contradiction; [reflexivity|].
    destruct H as [_ ->]. reflexivity. }
  destruct (Z.eqb_spec leftLen rightLen) as [Hlen|Hlen]; cbn [negb];
    [|split; [discriminate|intros [_ H]; apply Hlens in H; contradiction]].
  destruct (Z.eqb_spec leftLen 0) as [H0|H0].
  { split; [intros _|reflexivity]. split; [exact Hbit|].
    destruct (remaining L); [|cbn in HlenL; lia].
    destruct (remaining R); [|cbn in HlenR; lia].
    unfold same_remaining. now destruct (bitPos L =? 0). }
  unfold same_remaining.
  destruct (Z.eqb_spec (bitPos L) 0) as [Hb0|Hb0]; cbn [negb].
  - rewrite equals_loop_true, Z.sub_0_r.
    rewrite (list_eq_pointwise _ _ (Z.to_nat leftLen)) by lia.
    split.
    + intros H. split; [exact Hbit|]. intros j Hj.
      rewrite <- !remaining_nth by assumption.
      specialize (H j Hj). now rewrite !Z.add_0_l in H.
    + intros [_ H] j Hj. rewrite !Z.add_0_l.
      rewrite !remaining_nth by assumption. now apply H.
  - pose proof (remaining_nth L O HL) as EL. pose proof (remaining_nth R O HR) as ER.
    rewrite Z.add_0_r in EL, ER.
    pose proof (remaining_is_bytes L HL) as BL.
    pose proof (remaining_is_bytes R HR) as BR.
    assert (NL : forall j, JS.elem (bytes L) (bytePos L + (1 + Z.of_nat j))
                           = nth_error (remaining L) (S j)).
    { intros j. rewrite <- remaining_nth by assumption. f_equal. lia. }
    assert (NR : forall j, JS.elem (bytes R) (bytePos R + (1 + Z.of_nat j))
                           = nth_error (remaining R) (S j)).
    { intros j. rewrite <- remaining_nth by assumption. f_equal. lia. }
    destruct (remaining L) as [|a l]; [cbn in HlenL; lia|].
    destruct (remaining R) as [|b r]; [cbn in HlenR; lia|].
    cbn [nth_error] in EL, ER, NL, NR. rewrite EL, ER. cbn [JS.int_of].
    inversion BL as [|? ? Ha _]; subst. inversion BR as [|? ? Hb _]; subst.
    rewrite !partial_byte_mask by lia.
    cbn [length] in HlenL, HlenR.
    destruct (Z.eqb_spec (a mod 2 ^ (8 - bitPos L)) (b mod 2 ^ (8 - bitPos L)))
      as [Hm|Hm]; cbn [negb];
      [|split; [discriminate|intros [_ [H _]]; contradiction]].
    rewrite equals_loop_true.
    rewrite (list_eq_pointwise l r (Z.to_nat (leftLen - 1))) by lia.
    split.
    + intros H. split; [exact Hbit|]. split; [exact Hm|].
      intros j Hj. rewrite <- NL, <- NR. now apply H.
    + intros [_ [_ H]] j Hj. rewrite NL, NR. now apply H.
Qed.

(** C8 (amended): for readers [L] and [R] whose cursors lie inside their
    buffers ([wf]: [0 <= bytePos <= byteEnd], [byteEnd] the length of the
    byte buffer, [0 <= bitPos < 8]), [equals(L, R)] is [true] exactly when
    they have the same [bitPos] and the same remaining bytes from their
    cursors to their ends, where for [bitPos <> 0] the first (partial)
    byte counts only on its low [8 - bitPos] bits.  In particular two such
    readers with the same [bitPos] and identical remaining bytes compare
    equal, wherever their cursors stand. *)
Theorem equals_spec (L R : ReadableStream) (HL : wf L) (HR : wf R) :
  (equals L R = true <-> readers_equal L R)
  /\ (bitPos L = bitPos R -> remaining L = remaining R -> equals L R = true).
Proof.
  split; [now apply equals_iff|].
  intros Hbit Hrem. apply equals_iff; try assumption.
  split; [exact Hbit|]. unfold same_remaining. rewrite Hrem.
  destruct (bitPos L =? 0); [reflexivity|].
  destruct (remaining R); [exact I|]. split; reflexivity.
Qed.

(** Two readers at different offsets, both at bit 4: the partial bytes
    [0xF5] and [0x05] agree on their low four bits, and the rest is the
    same. *)
Lemma equals_spec_witness :
  wf (mkReadableStream [9; 0xF5; 2; 3] 1 4 4)
  /\ wf (mkReadableStream [0x05; 2; 3] 0 3 4)
  /\ equals (mkReadableStream [9; 0xF5; 2; 3] 1 4 4)
            (mkReadableStream [0x05; 2; 3] 0 3 4) = true
  /\ readers_equal (mkReadableStream [9; 0xF5; 2; 3] 1 4 4)
                   (mkReadableStream [0x05; 2; 3] 0 3 4).
Proof.
  assert (HL : wf (mkReadableStream [9; 0xF5; 2; 3] 1 4 4)).
  { constructor; cbn; try lia.
    unfold is_bytes. repeat (apply Forall_cons; [lia|]). apply Forall_nil. }
  assert (HR : wf (mkReadableStream [0x05; 2; 3] 0 3 4)).
  { constructor; cbn; try lia.
    unfold is_bytes. repeat (apply Forall_cons; [lia|]). apply Forall_nil. }
  split; [exact HL|]. split; [exact HR|]. split; [reflexivity|].
  apply (proj1 (equals_spec _ _ HL HR)). reflexivity.
Defined.

(** C8 as stated, for every pair of readers, fails once the cursors are
    past the ends of the buffers, which the reader does not prevent:
    [readUint32Bits(24)] on [[1; 2]] and on [[5]] both succeed and leave
    [bytePos = 3] and [bitPos = 0], with [byteEnd = 2] and [byteEnd = 1].
    No bytes remain on either side and the bit offsets are the same, yet
    [equals] compares the lengths [byteEnd - bytePos], here [-1] and [-2],
    and returns [false]. *)
Lemma equals_past_end_counterexample :
  readUint32Bits 24 (constructor [1; 2] 0 0)
  = Ok (66048, mkReadableStream [1; 2] 3 2 0)
  /\ readUint32Bits 24 (constructor [5] 0 0)
     = Ok (327680, mkReadableStream [5] 3 1 0)
  /\ bitPos (mkReadableStream [1; 2] 3 2 0) = bitPos (mkReadableStream [5] 3 1 0)
  /\ remaining (mkReadableStream [1; 2] 3 2 0) = []
  /\ remaining (mkReadableStream [5] 3 1 0) = []
  /\ readers_equal (mkReadableStream [1; 2] 3 2 0) (mkReadableStream [5] 3 1 0)
  /\ equals (mkReadableStream [1; 2] 3 2 0) (mkReadableStream [5] 3 1 0) = false
  /\ ~ (equals (mkReadableStream [1; 2] 3 2 0) (mkReadableStream [5] 3 1 0) = true
        <-> readers_equal (mkReadableStream [1; 2] 3 2 0)
                          (mkReadableStream [5] 3 1 0)).
Proof.
  assert (Heq : readers_equal (mkReadableStream [1; 2] 3 2 0)
                              (mkReadableStream [5] 3 1 0)).
  { split; reflexivity. }
  split; [vm_compute; reflexivity|].
  split; [vm_compute; reflexivity|].
  split; [reflexivity|]. split; [reflexivity|]. split; [reflexivity|].
  split; [exact Heq|]. split; [reflexivity|].
  intros [_ H]. specialize (H Heq). discriminate H.
Qed.

End Equality.

(* ================================================================== *)
(** ** Bit-level reads *)

Module BitReads.

Import Readable Spec.

(** The loop of [readUintBits], one turn unfolded. *)
Lemma readUintBits_loop_step (n result : Z) (this : ReadableStream) :
  readUintBits_loop n result this
  = if 0 <? n then
      if bitPos this + n <? 8 then
        let endBitPos := bitPos this + n in
        let shift := JS.shl 1 (endBitPos - bitPos this) in
        let cur := JS.band (JS.shru (JS.int_of (JS.elem (bytes this) (bytePos this)))
                                    (8 - endBitPos))
                           (shift - 1) in
        readUintBits_loop 0 (result * shift + cur) (set_bitPos endBitPos this)
      else
        let shift := JS.shl 1 (8 - bitPos this) in
        let cur := JS.band (JS.int_of (JS.elem (bytes this) (bytePos this)))
                           (shift - 1) in
        readUintBits_loop (n - (8 - bitPos this)) (result * shift + cur)
          (set_bytePos (bytePos this + 1) (set_bitPos 0 this))
    else (result, this).
Proof.
  rewrite readUintBits_loop_equation_1. unfold inspect.
  match goal with
  | |- _ = if _ then ?A else ?B =>
      assert (G : forall b (E : (0 <? n) = b),
                 readUintBits_loop_unfold_clause_1 n (exist _ b E) result this
                 = if b then A else B)
  end.
  { intros [|] E; simp readUintBits_loop; reflexivity. }
  apply G.
Qed.

(** An element read for the bit operators is a byte, also outside the
    array, where it counts as zero. *)
Lemma int_of_elem_byte (a : list Z) (i : Z) :
  is_bytes a -> 0 <= JS.int_of (JS.elem a i) < 256.
Proof.
  intros Ha. unfold JS.elem. destruct (i <? 0); [cbn; lia|].
  destruct (nth_error a (Z.to_nat i)) as [b|] eqn:E; [|cbn; lia].
  cbn. apply nth_error_In in E. unfold is_bytes in Ha.
  rewrite Forall_forall in Ha. now apply Ha.
Qed.

(** The loop appends [n] bits to [result] and moves the cursor by [n]
    bits. *)
Lemma readUintBits_loop_spec (n : Z) :
  0 <= n ->
  forall result this,
    0 <= bitPos this < 8 -> is_bytes (bytes this) -> 0 <= result ->
    let out := readUintBits_loop n result this in
    result * 2 ^ n <= fst out < (result + 1) * 2 ^ n
    /\ bytes (snd out) = bytes this
    /\ byteEnd (snd out) = byteEnd this
    /\ 0 <= bitPos (snd out) < 8
    /\ 8 * bytePos (snd out) + bitPos (snd out)
       = 8 * bytePos this + bitPos this + n.
Proof.
  intros Hn. generalize Hn. pattern n. apply Z_lt_induction; [clear n Hn|exact Hn].
  intros n IH Hn result this Hbit Hbytes Hres out. subst out.
  rewrite readUintBits_loop_step.
  destruct (Z.ltb_spec 0 n) as [Hpos|Hle].
  2:{ assert (n = 0) by lia. subst n. cbn [fst snd]. repeat split; lia. }
  pose proof (int_of_elem_byte (bytes this) (bytePos this) Hbytes) as Hbyte.
  set (byte := JS.int_of (JS.elem (bytes this) (bytePos this))) in *.
  destruct (Z.ltb_spec (bitPos this + n) 8) as [Hfit|Hspan]; cbv zeta.
  - replace (bitPos this + n - bitPos this) with n by lia.
    rewrite JSFacts.shl_1 by lia.
    rewrite JSFacts.shru_small by lia.
    assert (0 < 2 ^ n) by (apply Z.pow_pos_nonneg; lia).
    assert (0 < 2 ^ (8 - (bitPos this + n))) by (apply Z.pow_pos_nonneg; lia).
    assert (Hq : 0 <= byte / 2 ^ (8 - (bitPos this + n)) < 256).
    { split; [apply Z.div_pos; lia|].
      apply Z.div_lt_upper_bound; nia. }
    rewrite JSFacts.band_ones by lia.
    pose proof (Z.mod_pos_bound (byte / 2 ^ (8 - (bitPos this + n))) (2 ^ n)
                  ltac:(lia)) as Hcur.
    set (cur := (byte / 2 ^ (8 - (bitPos this + n))) mod 2 ^ n) in *.
    specialize (IH 0 ltac:(lia) ltac:(lia) (result * 2 ^ n + cur)
                  (set_bitPos (bitPos this + n) this)).
    cbn [set_bitPos bitPos bytes byteEnd bytePos] in IH.
    specialize (IH ltac:(lia) Hbytes ltac:(nia)). cbv zeta in IH.
    destruct IH as (Hu & Hb & He & Hbp & Hcursor).
    rewrite Z.pow_0_r in Hu.
    repeat split; try assumption; try lia; nia.
  - rewrite JSFacts.shl_1 by lia.
    assert (0 < 2 ^ (8 - bitPos this)) by (apply Z.pow_pos_nonneg; lia).
    rewrite JSFacts.band_ones by lia.
    pose proof (Z.mod_pos_bound byte (2 ^ (8 - bitPos this)) ltac:(lia)) as Hcur.
    set (cur := byte mod 2 ^ (8 - bitPos this)) in *.
    specialize (IH (n - (8 - bitPos this)) ltac:(lia) ltac:(lia)
                  (result * 2 ^ (8 - bitPos this) + cur)
                  (set_bytePos (bytePos this + 1) (set_bitPos 0 this))).
    cbn [set_bytePos set_bitPos bitPos bytes byteEnd bytePos] in IH.
    specialize (IH ltac:(lia) Hbytes ltac:(nia)). cbv zeta in IH.
    destruct IH as (Hu & Hb & He & Hbp & Hcursor).
    assert (Hpow : 2 ^ n = 2 ^ (8 - bitPos this) * 2 ^ (n - (8 - bitPos this))).
    { rewrite <- Z.pow_add_r by lia. f_equal. lia. }
    assert (0 < 2 ^ (n - (8 - bitPos this))) by (apply Z.pow_pos_nonneg; lia).
    rewrite Hpow.
    set (A := 2 ^ (8 - bitPos this)) in *.
    set (N := 2 ^ (n - (8 - bitPos this))) in *.
    repeat split; try assumption; try lia; nia.
Qed.

(** C6: for [0 <= n <= 32], [readSintBits(n)] returns the two's-complement
    reinterpretation of the [n] unsigned bits [u] that [readUintBits(n)]
    reads: [u - 2^n] when [u >= 2^(n-1)], and [u] otherwise; the cursor
    ends where [readUintBits(n)] leaves it.  [readSintBits(0)] returns 0
    and leaves the reader untouched.  On a reader whose [bitPos] is below 8
    and whose buffer holds bytes, [u] has [n] bits and the result lies in
    [[-2^(n-1), 2^(n-1))]. *)
Theorem readSintBits_spec (n : Z) (this : ReadableStream) (Hn : 0 <= n <= 32) :
  (n = 0 -> readSintBits n this = Ok (0, this))
  /\ (0 < n ->
      exists u this',
        readUintBits n this = Ok (u, this')
        /\ readSintBits n this = Ok (twos_complement n u, this')
        /\ twos_complement n u = (if 2 ^ (n - 1) <=? u then u - 2 ^ n else u)
        /\ (0 <= bitPos this < 8 -> is_bytes (bytes this) ->
            0 <= u < 2 ^ n
            /\ - 2 ^ (n - 1) <= twos_complement n u < 2 ^ (n - 1))).
Proof.
  split.
  - intros ->. reflexivity.
  - intros Hpos. unfold readSintBits, readUintBits.
    assert (E : (32 <? n) = false) by (apply Z.ltb_ge; lia).
    assert (E0 : (n =? 0) = false) by (apply Z.eqb_neq; lia).
    rewrite E, E0.
    pose proof (readUintBits_loop_spec n ltac:(lia) 0 this) as L.
    cbv zeta in L. destruct (readUintBits_loop n 0 this) as [u this'].
    cbn [fst snd] in L.
    exists u, this'. split; [reflexivity|].
    assert (Hpow : 2 ^ n = 2 * 2 ^ (n - 1)).
    { rewrite <- Z.pow_succ_r by lia. f_equal. lia. }
    unfold twos_complement.
    split; [|split; [reflexivity|]].
    + destruct (Z.ltb_spec u (2 ^ (n - 1))); destruct (Z.leb_spec (2 ^ (n - 1)) u);
        try lia; f_equal; f_equal; lia.
    + intros Hbit Hbytes.
      destruct (L Hbit Hbytes ltac:(lia)) as (Hu & _).
      destruct (Z.leb_spec (2 ^ (n - 1)) u); lia.
Qed.

(** A reader at bit 4 of its first byte [0x0A]: the four bits [1010] read
    as the signed value [-6]. *)
Lemma readSintBits_spec_witness :
  0 <= 4 <= 32
  /\ exists u this',
       readUintBits 4 (constructor [0x0A; 0xCD] 0 4) = Ok (u, this')
       /\ readSintBits 4 (constructor [0x0A; 0xCD] 0 4)
          = Ok (twos_complement 4 u, this')
       /\ twos_complement 4 u = (if 2 ^ (4 - 1) <=? u then u - 2 ^ 4 else u)
       /\ (0 <= bitPos (constructor [0x0A; 0xCD] 0 4) < 8 ->
           is_bytes (bytes (constructor [0x0A; 0xCD] 0 4)) ->
           0 <= u < 2 ^ 4
           /\ - 2 ^ (4 - 1) <= twos_complement 4 u < 2 ^ (4 - 1)).
Proof.
  assert (Hn : 0 <= 4 <= 32) by lia.
  split; [exact Hn|].
  apply (proj2 (readSintBits_spec 4 (constructor [0x0A; 0xCD] 0 4) Hn)). lia.
Defined.

End BitReads.


(* ================================================================== *)
(** ** LEB128 *)

Module Leb128.

Import Spec.

Lemma bor_continuation d : 0 <= d < 128 -> JS.bor d 0x80 = d + 128.
Proof.
  intros Hd. apply Z.eqb_eq.
  apply (Enumerate.forall_below 128 (fun d => JS.bor d 0x80 =? d + 128)); [|exact Hd].
  vm_compute. reflexivity.
Qed.

Lemma band_continuation d :
  0 <= d < 128 ->
  JS.band (d + 128) 0x7f = d /\ JS.band (d + 128) 128 = 128.
Proof.
  intros Hd.
  pose proof (Enumerate.forall_below 128
                (fun d => (JS.band (d + 128) 0x7f =? d)
                          && (JS.band (d + 128) 128 =? 128))
                ltac:(vm_compute; reflexivity) d Hd) as H.
  cbv beta in H. apply andb_true_iff in H. destruct H as [H1 H2].
  split; now apply Z.eqb_eq.
Qed.

Lemma band_last d :
  0 <= d < 128 ->
  JS.band d 0x7f = d /\ JS.band d 128 = 0 /\ (d < 16 -> JS.band d 0x0f = d).
Proof.
  intros Hd.
  pose proof (Enumerate.forall_below 128
                (fun d => (JS.band d 0x7f =? d) && (JS.band d 128 =? 0)
                          && ((16 <=? d) || (JS.band d 0x0f =? d)))
                ltac:(vm_compute; reflexivity) d Hd) as H.
  cbv beta in H. apply andb_true_iff in H. destruct H as [H H3].
  apply andb_true_iff in H. destruct H as [H1 H2].
  split; [now apply Z.eqb_eq|]. split; [now apply Z.eqb_eq|].
  intros Hlt. apply orb_true_iff in H3. destruct H3 as [H3|H3].
  - apply Z.leb_le in H3. lia.
  - now apply Z.eqb_eq.
Qed.

(** The loop of [writeUint32Leb128], one turn unfolded. *)
Lemma leb128_loop_step (value : Z) (chunk : list Z) :
  Writable.leb128_loop value chunk
  = if negb (value =? 0) || (Z.of_nat (length chunk) =? 0) then
      let nextByte := Z.rem value 0x80 in
      let value' := (value - nextByte) / 0x80 in
      let nextByte' := if negb (value' =? 0) then JS.bor nextByte 0x80 else nextByte in
      Writable.leb128_loop value' (chunk ++ [nextByte'])
    else chunk.
Proof.
  rewrite Writable.leb128_loop_equation_1. unfold inspect.
  match goal with
  | |- _ = if ?c then ?A else ?B =>
      assert (G : forall b (E : c = b),
                 Writable.leb128_loop_unfold_clause_1 value chunk (exist _ b E)
                 = if b then A else B)
  end.
  { intros [|] E; simp leb128_loop; reflexivity. }
  apply G.
Qed.

(** On a non-negative value the two steps of the loop are the low seven
    bits and the shift by seven. *)
Lemma leb128_digits (v : Z) :
  0 <= v ->
  Z.rem v 0x80 = v mod 128 /\ (v - Z.rem v 0x80) / 0x80 = v / 128.
Proof.
  intros Hv. rewrite Z.rem_mod_nonneg by lia. split; [reflexivity|].
  pose proof (Z.div_mod v 128 ltac:(lia)) as E.
  replace (v - v mod 128) with (v / 128 * 128) by lia.
  apply Z.div_mul. lia.
Qed.

(** Bytes emitted before the current value stay in front of the rest. *)
Lemma leb128_loop_prefix (v : Z) :
  0 <= v ->
  forall chunk, 0 < v ->
    Writable.leb128_loop v chunk = chunk ++ Writable.leb128_loop v [].
Proof.
  intros Hv. generalize Hv. pattern v. apply Z_lt_induction; [clear v Hv|exact Hv].
  intros v IH Hv chunk Hpos.
  rewrite (leb128_loop_step v chunk), (leb128_loop_step v []).
  assert (E : (v =? 0) = false) by (apply Z.eqb_neq; lia).
  rewrite E. cbn [negb orb]. cbv zeta.
  destruct (leb128_digits v Hv) as [-> ->].
  set (b := if negb (v / 128 =? 0) then JS.bor (v mod 128) 128 else v mod 128).
  cbn [app].
  assert (Hq : 0 <= v / 128 < v).
  { split; [apply Z.div_pos; lia|apply Z.div_lt; lia]. }
  destruct (Z.eq_dec (v / 128) 0) as [E0|E0].
  - rewrite E0. rewrite (leb128_loop_step 0 (chunk ++ [b])).
    rewrite (leb128_loop_step 0 [b]).
    rewrite length_app. cbn [length negb orb Z.eqb].
    replace (Z.of_nat (length chunk + 1) =? 0) with false
      by (symmetry; apply Z.eqb_neq; lia).
    reflexivity.
  - rewrite (IH (v / 128) ltac:(lia) ltac:(lia) (chunk ++ [b]) ltac:(lia)).
    rewrite (IH (v / 128) ltac:(lia) ltac:(lia) [b] ltac:(lia)).
    now rewrite <- app_assoc.
Qed.

(** The encoding of a value below 128 is the value itself. *)
Lemma leb128_loop_last (v : Z) :
  0 <= v < 128 -> Writable.leb128_loop v [] = [v].
Proof.
  intros Hv. rewrite leb128_loop_step. cbn [length Z.of_nat Z.eqb orb].
  rewrite orb_true_r. cbv zeta.
  destruct (leb128_digits v ltac:(lia)) as [-> ->].
  rewrite Z.div_small, Z.mod_small by lia. cbn [Z.eqb negb app].
  rewrite leb128_loop_step. reflexivity.
Qed.

(** The encoding of a larger value starts with its low seven bits and the
    continuation bit. *)
Lemma leb128_loop_more (v : Z) :
  128 <= v ->
  Writable.leb128_loop v [] = (v mod 128 + 128) :: Writable.leb128_loop (v / 128) [].
Proof.
  intros Hv. rewrite leb128_loop_step. cbn [length Z.of_nat Z.eqb orb].
  rewrite orb_true_r. cbv zeta.
  destruct (leb128_digits v ltac:(lia)) as [-> ->].
  assert (Hq : 0 < v / 128) by (apply Z.div_str_pos; lia).
  assert (E : (v / 128 =? 0) = false) by (apply Z.eqb_neq; lia).
  rewrite E. cbn [negb app].
  rewrite bor_continuation by (apply Z.mod_pos_bound; lia).
  now rewrite leb128_loop_prefix by lia.
Qed.

(** The bytes that [writeUint32Leb128(v)] appends. *)
Lemma encoded_last (v : Z) :
  0 <= v < 128 -> JS.Uint8Array_from (Writable.leb128_loop v []) = [v].
Proof.
  intros Hv. rewrite leb128_loop_last by assumption. cbn.
  now rewrite Z.mod_small by lia.
Qed.

Lemma encoded_more (v : Z) :
  128 <= v ->
  JS.Uint8Array_from (Writable.leb128_loop v [])
  = (v mod 128 + 128) :: JS.Uint8Array_from (Writable.leb128_loop (v / 128) []).
Proof.
  intros Hv. rewrite leb128_loop_more by assumption. cbn. f_equal.
  pose proof (Z.mod_pos_bound v 128 ltac:(lia)).
  apply Z.mod_small. lia.
Qed.

Lemma elem_after_prefix (pre : list Z) (b : Z) (rest : list Z) :
  JS.elem (pre ++ b :: rest) (Z.of_nat (length pre)) = Some b.
Proof.
  rewrite JSFacts.elem_nth by lia. rewrite Nat2Z.id.
  rewrite nth_error_app2 by lia. now rewrite Nat.sub_diag.
Qed.

(** Decoding from the [i]-th group on: a reader that stands in front of
    the encoding of [v] adds [v * 2^(7 i)] to its result and stops at the
    end of the encoding. *)
Lemma decode_encoded (k : nat) :
  forall i v acc this pre,
    Z.of_nat k = 5 - i -> 0 <= i ->
    0 <= v < 2 ^ (32 - 7 * i) ->
    Readable.bytes this = pre ++ JS.Uint8Array_from (Writable.leb128_loop v []) ->
    Readable.bytePos this = Z.of_nat (length pre) ->
    Readable.readUint32Leb128_loop k i acc this
    = (acc + v * 2 ^ (7 * i),
       Readable.set_bytePos (Z.of_nat (length (Readable.bytes this))) this).
Proof.
  induction k as [|k IH]; intros i v acc this pre Hk Hi Hv Hbytes Hpos.
  - assert (i = 5) by lia. subst i. cbn in Hv. lia.
  - assert (Hcases : i = 0 \/ i = 1 \/ i = 2 \/ i = 3 \/ i = 4) by lia.
    cbn [Readable.readUint32Leb128_loop]. change (JS.shl 1 7) with 128.
    destruct (Z_lt_ge_dec v 128) as [Hsmall|Hbig].
    + rewrite encoded_last in Hbytes by lia.
      assert (El : JS.elem (Readable.bytes this) (Readable.bytePos this) = Some v)
        by (rewrite Hbytes, Hpos; apply elem_after_prefix).
      rewrite El. cbn [JS.int_of].
      destruct (band_last v ltac:(lia)) as (E1 & E2 & E3).
      rewrite E1, E2. cbn [Z.eqb].
      assert (Hlen : Z.of_nat (length (Readable.bytes this)) = Z.of_nat (length pre) + 1).
      { rewrite Hbytes, length_app. cbn [length]. lia. }
      rewrite Hlen, Hpos. f_equal.
      destruct Hcases as [-> | [-> | [-> | [-> | ->]]]]; cbn [Z.ltb Z.compare Z.mul];
        try (rewrite JSFacts.shl_small by (cbn; lia); reflexivity).
      rewrite E3 by (cbn in Hv; lia). reflexivity.
    + assert (Hi4 : i <> 4) by (intros ->; cbn in Hv; lia).
      rewrite encoded_more in Hbytes by lia.
      pose proof (Z.mod_pos_bound v 128 ltac:(lia)) as Hd.
      assert (El : JS.elem (Readable.bytes this) (Readable.bytePos this)
                   = Some (v mod 128 + 128))
        by (rewrite Hbytes, Hpos; apply elem_after_prefix).
      rewrite El. cbn [JS.int_of].
      destruct (band_continuation (v mod 128) Hd) as (E1 & E2).
      rewrite E1, E2. cbn [Z.eqb].
      assert (Hlt : (i <? 4) = true) by (apply Z.ltb_lt; lia).
      rewrite Hlt.
      assert (Hq : 0 <= v / 128 < 2 ^ (32 - 7 * (i + 1))).
      { split; [apply Z.div_pos; lia|].
        apply Z.div_lt_upper_bound; [lia|].
        replace (128 * 2 ^ (32 - 7 * (i + 1))) with (2 ^ (32 - 7 * i)); [lia|].
        replace (32 - 7 * i) with (7 + (32 - 7 * (i + 1))) by lia.
        rewrite Z.pow_add_r by lia. reflexivity. }
      rewrite (IH (i + 1) (v / 128) _ _ (pre ++ [v mod 128 + 128])); try lia;
        try assumption.
      * cbn [Readable.set_bytePos Readable.bytes]. f_equal.
        rewrite JSFacts.shl_small;
          [|lia|lia|
           destruct Hcases as [-> | [-> | [-> | [-> | ->]]]]; cbn; lia].
        pose proof (Z.div_mod v 128 ltac:(lia)) as Edm.
        replace (7 * (i + 1)) with (7 + 7 * i) by lia.
        rewrite Z.pow_add_r by lia. change (2 ^ 7) with 128.
        set (P := 2 ^ (7 * i)). nia.
      * cbn [Readable.set_bytePos Readable.bytes]. rewrite Hbytes.
        now rewrite <- app_assoc.
      * cbn [Readable.set_bytePos Readable.bytePos]. rewrite length_app.
        cbn [length]. lia.
Qed.

(** C2: for every 32-bit unsigned [v], on every writer,
    [writeUint32Leb128(v)] appends bytes from which [readUint32Leb128]
    reads [v] back, stopping at their end; and
    [writeUint32Leb128(4294967295)] on a new writer produces exactly the
    five bytes [0xff, 0xff, 0xff, 0xff, 0x0f]. *)
Theorem leb128_round_trip (v : Z) (this : Writable.WritableStream)
  (Hv : 0 <= v < 2 ^ 32) :
  (exists w bytes w',
      Writable.writeUint32Leb128 v this = Ok (tt, w)
      /\ Writable.getBytes w = Ok (bytes, w')
      /\ Readable.readUint32Leb128
           (Readable.set_bytePos
              (Z.of_nat (length (concatBytes (Writable.chunks this))))
              (Readable.constructor bytes 0 0))
         = Ok (v, Readable.set_bytePos (Z.of_nat (length bytes))
                    (Readable.constructor bytes 0 0)))
  /\ (exists w w',
      Writable.writeUint32Leb128 4294967295 Writable.constructor = Ok (tt, w)
      /\ Writable.getBytes w = Ok ([0xff; 0xff; 0xff; 0xff; 0x0f], w')).
Proof.
  split.
  - eexists; eexists; eexists.
    split; [reflexivity|]. split; [reflexivity|].
    unfold Readable.readUint32Leb128. f_equal.
    cbn [Writable.push Writable.chunks concatBytes].
    rewrite (decode_encoded 5 0 v 0 _ (concatBytes (Writable.chunks this))).
    + f_equal. rewrite Z.mul_0_r, Z.pow_0_r. lia.
    + reflexivity.
    + lia.
    + exact Hv.
    + cbn [Readable.set_bytePos Readable.constructor Readable.bytes].
      unfold concatBytes. rewrite concat_app. cbn [concat].
      now rewrite app_nil_r.
    + reflexivity.
  - eexists; eexists. split; reflexivity.
Qed.

(** The values named by the specification round-trip on a new writer. *)
Lemma leb128_round_trip_witness :
  0 <= 16384 < 2 ^ 32
  /\ exists w bytes w',
      Writable.writeUint32Leb128 16384 Writable.constructor = Ok (tt, w)
      /\ Writable.getBytes w = Ok (bytes, w')
      /\ Readable.readUint32Leb128
           (Readable.set_bytePos
              (Z.of_nat (length (concatBytes (Writable.chunks Writable.constructor))))
              (Readable.constructor bytes 0 0))
         = Ok (16384, Readable.set_bytePos (Z.of_nat (length bytes))
                        (Readable.constructor bytes 0 0)).
Proof.
  split; [lia|].
  apply (leb128_round_trip 16384 Writable.constructor). lia.
Defined.

End Leb128.


(* ================================================================== *)
(** ** The word-swapped little-endian double *)

Module Float64LE32.

Import Readable Spec.

Lemma le_step (a x : Z) :
  0 <= a < 256 -> (a + 256 * x) mod 256 = a /\ (a + 256 * x) / 256 = x.
Proof.
  intros Ha. rewrite (Z.mul_comm 256 x). split.
  - rewrite Z.mod_add by lia. apply Z.mod_small. lia.
  - rewrite Z.div_add by lia. rewrite Z.div_small by lia. lia.
Qed.

(** Four bytes written by [setUint32] are the four bytes that [getUint32]
    combined. *)
Lemma le_split_combine4 (a b c d : Z) :
  is_bytes [a; b; c; d] ->
  DataView.le_split 4 (JS.ToUint32 (DataView.le_combine [a; b; c; d]))
  = [a; b; c; d].
Proof.
  intros H.
  inversion H as [|? ? Ha H1]; subst. inversion H1 as [|? ? Hb H2]; subst.
  inversion H2 as [|? ? Hc H3]; subst. inversion H3 as [|? ? Hd _]; subst.
  rewrite JSFacts.ToUint32_small by (cbn [DataView.le_combine]; lia).
  cbn [DataView.le_split DataView.le_combine].
  rewrite Z.mul_0_r, Z.add_0_r.
  destruct (le_step a (b + 256 * (c + 256 * d)) Ha) as [-> ->].
  destruct (le_step b (c + 256 * d) Hb) as [-> ->].
  destruct (le_step c d Hc) as [-> ->].
  now rewrite Z.mod_small by lia.
Qed.

(** A [DataView] read of the bytes that stand at an offset. *)
Lemma read_at (bs : list Z) (p : Z) (l rest : list Z) :
  0 <= p -> l <> [] -> skipn (Z.to_nat p) bs = l ++ rest ->
  DataView.read bs p (Z.of_nat (length l)) = Ok l.
Proof.
  intros Hp Hl E. unfold DataView.read.
  assert (Hlen : length (skipn (Z.to_nat p) bs) = (length l + length rest)%nat)
    by (rewrite E; apply length_app).
  rewrite length_skipn in Hlen.
  assert (0 < length l)%nat by (destruct l; [contradiction|cbn; lia]).
  destruct (Z.ltb_spec p 0); [lia|].
  destruct (Z.ltb_spec (Z.of_nat (length bs)) (p + Z.of_nat (length l))); [lia|].
  cbn [orb]. rewrite E, Nat2Z.id. f_equal.
  rewrite firstn_app, Nat.sub_diag, firstn_all. cbn [firstn]. apply app_nil_r.
Qed.

(** C4: when the bytes [b0 .. b7] stand at the cursor of a reader and the
    word-swapped bytes [b4 .. b7, b0 .. b3] at the cursor of another one,
    [readFloat64LE32] on the first returns the double that
    [readFloat64LE] returns on the second, whatever the shared temporary
    buffer held before, and both advance [bytePos] by 8. *)
Theorem readFloat64LE32_word_swap
  (b0 b1 b2 b3 b4 b5 b6 b7 : Z) (TMP_BUFFER : list Z)
  (this that : ReadableStream)
  (Hbytes : is_bytes [b0; b1; b2; b3; b4; b5; b6; b7])
  (Htmp : length TMP_BUFFER = 8%nat)
  (Hthis : at_cursor this [b0; b1; b2; b3; b4; b5; b6; b7])
  (Hthat : at_cursor that [b4; b5; b6; b7; b0; b1; b2; b3]) :
  exists x : Float64,
    readFloat64LE32 TMP_BUFFER this
    = Ok ((x, [b4; b5; b6; b7; b0; b1; b2; b3]),
          set_bytePos (bytePos this + 8) this)
    /\ readFloat64LE that = Ok (x, set_bytePos (bytePos that + 8) that)
    /\ x = float64_of_bits
             (DataView.le_combine [b4; b5; b6; b7; b0; b1; b2; b3]).
Proof.
  destruct Hthis as (Hp & rest & E). destruct Hthat as (Hp' & rest' & E').
  eexists. split; [|split; [|reflexivity]].
  - unfold readFloat64LE32, DataView.getUint32, DataView.getUint.
    assert (E4 : skipn (Z.to_nat (bytePos this + 4)) (bytes this)
                 = [b4; b5; b6; b7] ++ rest).
    { replace (Z.to_nat (bytePos this + 4)) with (4 + Z.to_nat (bytePos this))%nat by lia.
      rewrite <- skipn_skipn, E. reflexivity. }
    assert (Hp4 : 0 <= bytePos this + 4) by lia.
    pose proof (read_at _ _ [b4; b5; b6; b7] rest Hp4 ltac:(discriminate) E4) as R4.
    pose proof (read_at _ _ [b0; b1; b2; b3] ([b4; b5; b6; b7] ++ rest)
                  Hp ltac:(discriminate) E) as R0.
    change (Z.of_nat (length [b4; b5; b6; b7])) with 4 in R4.
    change (Z.of_nat (length [b0; b1; b2; b3])) with 4 in R0.
    rewrite R4, R0.
    cbn [DataView.order].
    destruct TMP_BUFFER as [|t0 [|t1 [|t2 [|t3 [|t4 [|t5 [|t6 [|t7 [|? ?]]]]]]]]];
      try discriminate Htmp.
    unfold DataView.setUint32 at 1. cbn [length Z.of_nat Z.ltb orb].
    change (Z.of_nat 8 <? 0 + 4) with false. cbn iota.
    inversion Hbytes as [|? ? H0 Hb1]; subst. inversion Hb1 as [|? ? H1 Hb2]; subst.
    inversion Hb2 as [|? ? H2 Hb3]; subst. inversion Hb3 as [|? ? H3 Hb4]; subst.
    rewrite le_split_combine4 by exact Hb4.
    cbn [DataView.order Z.to_nat firstn skipn app Z.add Pos.to_nat Pos.iter_op Nat.add].
    unfold DataView.setUint32. cbn [length Z.of_nat].
    change ((4 <? 0) || (Z.of_nat 8 <? 4 + 4)) with false. cbn iota.
    rewrite le_split_combine4
      by (unfold is_bytes; repeat (apply Forall_cons; [assumption|]); apply Forall_nil).
    change (Z.to_nat 4) with 4%nat. change (Z.to_nat (4 + 4)) with 8%nat.
    cbn [DataView.order firstn skipn app].
    unfold DataView.getFloat64, DataView.read.
    cbn [length Z.of_nat Z.ltb orb].
    change ((0 <? 0) || (Z.of_nat 8 <? 0 + 8)) with false. cbn iota.
    change (Z.to_nat 0) with 0%nat. change (Z.to_nat 8) with 8%nat.
    cbn [DataView.order firstn skipn]. reflexivity.
  - unfold readFloat64LE, view_read, DataView.getFloat64.
    pose proof (read_at _ _ [b4; b5; b6; b7; b0; b1; b2; b3] rest'
                  Hp' ltac:(discriminate) E') as R8.
    change (Z.of_nat (length [b4; b5; b6; b7; b0; b1; b2; b3])) with 8 in R8.
    rewrite R8. reflexivity.
Qed.

(** The double 1.0, whose little-endian bytes are
    [00 00 00 00 00 00 f0 3f], read from its word-swapped layout. *)
Lemma readFloat64LE32_word_swap_witness :
  exists x : Float64,
    readFloat64LE32 [9; 9; 9; 9; 9; 9; 9; 9]
      (constructor [0; 0; 0xf0; 0x3f; 0; 0; 0; 0] 0 0)
    = Ok ((x, [0; 0; 0; 0; 0; 0; 0xf0; 0x3f]),
          set_bytePos (0 + 8) (constructor [0; 0; 0xf0; 0x3f; 0; 0; 0; 0] 0 0))
    /\ readFloat64LE (constructor [0; 0; 0; 0; 0; 0; 0xf0; 0x3f] 0 0)
       = Ok (x, set_bytePos (0 + 8) (constructor [0; 0; 0; 0; 0; 0; 0xf0; 0x3f] 0 0))
    /\ x = float64_of_bits (DataView.le_combine [0; 0; 0; 0; 0; 0; 0xf0; 0x3f]).
Proof.
  apply (readFloat64LE32_word_swap 0 0 0xf0 0x3f 0 0 0 0 [9; 9; 9; 9; 9; 9; 9; 9]
           (constructor [0; 0; 0xf0; 0x3f; 0; 0; 0; 0] 0 0)
           (constructor [0; 0; 0; 0; 0; 0; 0xf0; 0x3f] 0 0)).
  - unfold is_bytes. repeat (apply Forall_cons; [lia|]). apply Forall_nil.
  - reflexivity.
  - split; [cbn; lia|]. exists []. reflexivity.
  - split; [cbn; lia|]. exists []. reflexivity.
Defined.

End Float64LE32.

(* ================================================================== *)
(** ** Half-precision decoding *)

Module Float16Decode.

Import Spec.

(** All patterns, field by field: 2 signs, 32 exponents, 1024 fractions. *)
Lemma decodes_correctly_all (S E F : Z) :
  0 <= S < 2 -> 0 <= E < 32 -> 0 <= F < 1024 -> decodes_correctly S E F = true.
Proof.
  intros HS HE HF.
  pose proof (Enumerate.forall_below 2
    (fun S => check_from
       (fun E => check_from (fun F => decodes_correctly S E F) (Z.to_nat 1024) 0)
       (Z.to_nat 32) 0)
    ltac:(vm_compute; reflexivity) S HS) as H1.
  cbv beta in H1.
  pose proof (Enumerate.forall_below 32 _ H1 E HE) as H2. cbv beta in H2.
  exact (Enumerate.forall_below 1024 _ H2 F HF).
Qed.

(** [u & 2^n] isolates bit [n]. *)
Lemma land_pow2 (u n : Z) :
  0 <= n -> Z.land u (2 ^ n) = if Z.testbit u n then 2 ^ n else 0.
Proof.
  intros Hn. apply Z.bits_inj'. intros m Hm.
  rewrite Z.land_spec, Z.pow2_bits_eqb by lia.
  destruct (Z.eqb_spec n m) as [<-|Hne].
  - rewrite andb_true_r. destruct (Z.testbit u n) eqn:E.
    + now rewrite Z.pow2_bits_true.
    + now rewrite Z.bits_0.
  - rewrite andb_false_r. destruct (Z.testbit u n).
    + now rewrite Z.pow2_bits_false.
    + now rewrite Z.bits_0.
Qed.

(** The three masks of [reinterpretUint16AsFloat16] extract the fields of
    the binary16 layout. *)
Lemma sign_field (u16 : Z) :
  0 <= u16 < 65536 ->
  negb (JS.band u16 (JS.shl 1 15) =? 0) = (field_S u16 =? 1).
Proof.
  intros Hu. change (JS.shl 1 15) with (2 ^ 15).
  rewrite JSFacts.band_small by lia. rewrite land_pow2 by lia.
  unfold field_S. rewrite <- Z.testbit_spec' by lia.
  destruct (Z.testbit u16 15); reflexivity.
Qed.

Lemma exponent_field (u16 : Z) :
  0 <= u16 < 65536 -> JS.shru (JS.band u16 0x7c00) 10 = field_E u16.
Proof.
  intros Hu. rewrite JSFacts.band_small by lia.
  assert (Hland : 0 <= Z.land u16 0x7c00 < 2 ^ 32).
  { assert (H0 : 0 <= Z.land u16 0x7c00) by (apply Z.land_nonneg; lia).
    split; [exact H0|].
    destruct (Z.eq_dec (Z.land u16 0x7c00) 0) as [->|Hne]; [lia|].
    apply Z.log2_lt_pow2; [lia|].
    pose proof (Z.log2_land u16 0x7c00 ltac:(lia) ltac:(lia)) as Hl.
    change (Z.log2 0x7c00) with 14 in Hl. lia. }
  unfold JS.shru. rewrite JSFacts.ToUint32_small by exact Hland.
  change (JS.ToUint32 10 mod 32) with 10.
  rewrite Z.shiftr_land. change (Z.shiftr 0x7c00 10) with (Z.ones 5).
  rewrite Z.land_ones by lia. rewrite Z.shiftr_div_pow2 by lia. reflexivity.
Qed.

Lemma fraction_field (u16 : Z) :
  0 <= u16 < 65536 -> JS.band u16 0x03ff = field_F u16.
Proof.
  intros Hu. change 0x03ff with (2 ^ 10 - 1).
  rewrite JSFacts.band_ones by lia. reflexivity.
Qed.

Lemma reinterpretUint16AsFloat16_fields (u16 : Z) :
  0 <= u16 < 65536 ->
  reinterpretUint16AsFloat16 u16
  = float16_of_fields (if field_S u16 =? 1 then -1 else 1)
                      (field_E u16) (field_F u16).
Proof.
  intros Hu. unfold reinterpretUint16AsFloat16. cbv zeta.
  rewrite sign_field, exponent_field, fraction_field by exact Hu.
  reflexivity.
Qed.

Lemma fields_range (u16 : Z) :
  0 <= field_S u16 < 2 /\ 0 <= field_E u16 < 32 /\ 0 <= field_F u16 < 1024.
Proof.
  unfold field_S, field_E, field_F.
  split; [|split]; apply Z.mod_pos_bound; reflexivity.
Qed.

Lemma same_value_Finite (a : binary16_value) (q : Q) :
  same_value a (Finite q) = true -> exists p, a = Finite p /\ (p == q)%Q.
Proof.
  destruct a as [p| |]; cbn; try discriminate.
  intros H. exists p. split; [reflexivity|]. now apply Qeq_bool_iff.
Qed.

(** C5: for every 16-bit pattern with sign bit [S], exponent field [E] and
    fraction field [F], [reinterpretUint16AsFloat16] returns the double
    whose value is [sign * 2^-14 * (F / 1024)] when [E = 0],
    [sign * 2^(E - 15) * (1 + F / 1024)] when [1 <= E <= 30], the infinity
    of that sign when [E = 31] and [F = 0], and a NaN when [E = 31] and
    [F <> 0], where [sign] is [-1] if [S = 1] and [+1] otherwise.  Every
    result but the NaN carries the sign [S], the zeros included; in one
    word, the result has the value [binary16 u16]. *)
Theorem reinterpretUint16AsFloat16_spec (u16 : Z) (Hu16 : 0 <= u16 < 65536) :
  let x := reinterpretUint16AsFloat16 u16 in
  let S := field_S u16 in
  let E := field_E u16 in
  let F := field_F u16 in
  let sign : Q := if S =? 1 then (-1 # 1) else (1 # 1) in
  (E = 0 ->
     exists q, value_of x = Finite q
               /\ (q == sign * two_to (-14) * (inject_Z F / inject_Z 1024))%Q)
  /\ (1 <= E <= 30 ->
     exists q, value_of x = Finite q
               /\ (q == sign * two_to (E - 15) * (1 + inject_Z F / inject_Z 1024))%Q)
  /\ (E = 31 -> F = 0 -> value_of x = Infinite (S =? 1))
  /\ (E = 31 -> F <> 0 -> value_of x = NotANumber)
  /\ (~ (E = 31 /\ F <> 0) -> sign_of x = Some (S =? 1))
  /\ same_value (value_of x) (binary16 u16) = true.
Proof.
  intros x S E F sign.
  destruct (fields_range u16) as (HS & HE & HF). fold S in HS. fold E in HE. fold F in HF.
  pose proof (decodes_correctly_all S E F HS HE HF) as H.
  unfold decodes_correctly in H.
  assert (Hx : x = float16_of_fields (if S =? 1 then -1 else 1) E F)
    by exact (reinterpretUint16AsFloat16_fields u16 Hu16).
  rewrite <- Hx in H.
  apply andb_true_iff in H. destruct H as [Hval Hsign].
  assert (Hall : same_value (value_of x) (binary16 u16) = true) by exact Hval.
  unfold binary16_of_fields in Hval. fold sign in Hval.
  split; [|split; [|split; [|split; [|split; [|exact Hall]]]]].
  - intros HE0. rewrite HE0 in Hval. cbn [Z.eqb] in Hval.
    now apply same_value_Finite.
  - intros HE1.
    destruct (Z.eqb_spec E 0) as [|_]; [lia|].
    destruct (Z.eqb_spec E 31) as [|_]; [lia|].
    now apply same_value_Finite.
  - intros HE31 HF0. rewrite HE31, HF0 in Hval. cbn [Z.eqb Pos.eqb] in Hval.
    destruct (value_of x) as [|s|]; cbn in Hval; try discriminate.
    f_equal. now apply Bool.eqb_prop.
  - intros HE31 HFn. rewrite HE31 in Hval. cbn [Z.eqb Pos.eqb] in Hval.
    destruct (Z.eqb_spec F 0) as [|_]; [contradiction|].
    destruct (value_of x); cbn in Hval; try discriminate. reflexivity.
  - intros Hnan. destruct (sign_of x) as [s|].
    + f_equal. now apply Bool.eqb_prop.
    + exfalso. apply andb_true_iff in Hsign. destruct Hsign as [H1 H2].
      apply Hnan. split; [now apply Z.eqb_eq|].
      apply negb_true_iff, Z.eqb_neq in H2. exact H2.
Qed.

(** The largest finite half, [0x7bff], is 65504. *)
Lemma reinterpretUint16AsFloat16_spec_witness :
  0 <= 0x7bff < 65536
  /\ exists q, value_of (reinterpretUint16AsFloat16 0x7bff) = Finite q
               /\ (q == 65504 # 1)%Q.
Proof.
  split; [lia|].
  destruct (proj1 (proj2 (reinterpretUint16AsFloat16_spec 0x7bff ltac:(lia))))
    as (q & Hq & Heq); [vm_compute; split; discriminate|].
  exists q. split; [exact Hq|]. rewrite Heq. vm_compute. reflexivity.
Defined.

End Float16Decode.
